(** * whisper-transcriber-telegram-bot: admission, queueing and dispatch

    A shallow embedding of [src/main.py] (class [TranscriberBot]) and the
    properties of its job admission path, its FIFO task queue, its
    single-flight dispatcher loop and its per-user model selection.

    Python [str] values are sequences of Unicode code points; the asyncio
    event loop is cooperative, so every stretch of handler code between two
    suspension points is one atomic transition of the system below. *)

From Stdlib Require Import ZArith NArith Ascii String Lia.
From stdpp Require Import gmap list pretty.

Open Scope Z_scope.

(** ** Python strings *)

(** A Python [str]: the list of its code points. *)
Abbreviation str := (list N).

(** A literal of the source, character by character. *)
Fixpoint lit (s : string) : str :=
  match s with
  | EmptyString => []
  | String a s' => N_of_ascii a :: lit s'
  end.

(** The newline escape of the source literals. *)
Definition nl : str := [10%N].

(** [sep.join(parts)]. *)
Fixpoint join (sep : str) (parts : list str) : str :=
  match parts with
  | [] => []
  | [p] => p
  | p :: ps => p ++ sep ++ join sep ps
  end.

(** [strip_prefix p s] is [Some r] when [s = p ++ r]: a literal piece of a
    pattern matched at the head of [s]. *)
Fixpoint strip_prefix (p s : str) : option str :=
  match p, s with
  | [], _ => Some s
  | a :: p', b :: s' => if N.eqb a b then strip_prefix p' s' else None
  | _ :: _, [] => None
  end.

(** [s.split(sep)] for a non-empty separator.  [skip] counts the characters
    of a separator occurrence still to be stepped over, [cur] is the piece
    being collected. *)
Fixpoint split_go (sep : str) (skip : nat) (cur : str) (s : str) : list str :=
  match s with
  | [] => [cur]
  | c :: s' =>
      match skip with
      | S k => split_go sep k cur s'
      | O =>
          match strip_prefix sep s with
          | Some _ => cur :: split_go sep (length sep - 1) [] s'
          | None => split_go sep 0 (cur ++ [c]) s'
          end
      end
  end.

Definition split (sep s : str) : list str := split_go sep 0 [] s.

(** ** The URL pattern [(https?://\S+)] *)

(** Whitespace as [\s] sees it in a [str] pattern (the interpreter's
    [Py_UNICODE_ISSPACE]); [\S] is its complement. *)
Definition Py_UNICODE_ISSPACE (c : N) : bool :=
  ((0x09 <=? c) && (c <=? 0x0D) || (0x1C <=? c) && (c <=? 0x20)
   || (c =? 0x85) || (c =? 0xA0) || (c =? 0x1680)
   || (0x2000 <=? c) && (c <=? 0x200A)
   || (c =? 0x2028) || (c =? 0x2029) || (c =? 0x202F) || (c =? 0x205F)
   || (c =? 0x3000))%N.

(** Greedy [\S*]: the longest run of non-whitespace at the head of [s], and
    what follows it. *)
Fixpoint span_S (s : str) : str * str :=
  match s with
  | [] => ([], [])
  | c :: s' =>
      if Py_UNICODE_ISSPACE c then ([], s)
      else let '(m, r) := span_S s' in (c :: m, r)
  end.

(** [://\S+] at the head of [s]: the matched text and the rest. *)
Definition match_tail (s : str) : option (str * str) :=
  match strip_prefix (lit "://") s with
  | None => None
  | Some r =>
      match span_S r with
      | ([], _) => None
      | (m, rest) => Some (lit "://" ++ m, rest)
      end
  end.

(** [https?://\S+] anchored at the head of [s].  The optional [s] is greedy:
    the branch that consumes it is tried first, the one without it on
    failure. *)
Definition match_here (s : str) : option (str * str) :=
  match strip_prefix (lit "http") s with
  | None => None
  | Some r =>
      let with_s :=
        match r with
        | c :: r' =>
            if (c =? 115)%N then
              match match_tail r' with
              | Some (m, rest) => Some (lit "https" ++ m, rest)
              | None => None
              end
            else None
        | [] => None
        end in
      match with_s with
      | Some res => Some res
      | None =>
          match match_tail r with
          | Some (m, rest) => Some (lit "http" ++ m, rest)
          | None => None
          end
      end
  end.

(** The scan of [re.findall]: leftmost match first, the search resuming
    where the match ended; one character further when nothing matches.
    Every round consumes a character, so [length s] rounds are enough. *)
Fixpoint findall_go (fuel : nat) (s : str) : list str :=
  match fuel with
  | O => []
  | S fuel' =>
      match s with
      | [] => []
      | _ :: s' =>
          match match_here s with
          | Some (m, rest) => m :: findall_go fuel' rest
          | None => findall_go fuel' s'
          end
      end
  end.

(** [re.findall(r'(https?://\S+)', text)]. *)
Definition findall_url (text : str) : list str :=
  findall_go (length text) text.

(** ** Objects of the transport *)

(** [context.bot]: the handle replies and the transcription collaborator use;
    opaque to this module. *)
Inductive Bot : Type := ApplicationBot.

(** What the handlers read of a [telegram.Update]:
    [update.effective_user.id] and [update.message.text]. *)
Record Update : Type := mkUpdate {
  effective_user_id : Z;
  message_text : str;
}.

(** An entry of [task_queue]: the tuple
    [(update.message.text, context.bot, update)]. *)
Definition Job : Type := str * Bot * Update.

#[global] Instance Bot_eq_dec : EqDecision Bot.
Proof. solve_decision. Defined.

#[global] Instance Update_eq_dec : EqDecision Update.
Proof. solve_decision. Defined.

(** What a handler does to the outside world. *)
Inductive action : Type :=
  | reply_text (update : Update) (text : str) (parse_mode : option str)
      (** [await update.message.reply_text(text, parse_mode=...)] *)
  | process_url_message (message_text : str) (bot : Bot) (update : Update)
      (model : str).
      (** the transcription collaborator is entered with these arguments *)

(** How the awaited [process_url_message] ends: it returns (having delivered
    the transcript, or having reported a failure to the chat itself), or it
    raises. *)
Inductive outcome : Type :=
  | Returned (delivered : bool)
  | Raised.

(** ** State *)

(** The attributes of [TranscriberBot] that the handlers touch, the
    class-level [processing_lock], and the per-user model table kept by
    [transcription_handler].  ([is_processing], [user_models] and
    [user_models_lock] of [__init__] are never referred to again.) *)
Record TranscriberBot : Type := mkBot {
  task_queue : list Job;              (* asyncio.Queue: pending items, head first *)
  unfinished_tasks : nat;             (* asyncio.Queue: puts not yet task_done *)
  processing_lock : bool;             (* asyncio.Lock: true when held *)
  model : str;
  valid_models : list str;
  model_change_limits : gmap Z Z;
  model_change_cooldown : Z;
  handler_user_models : gmap Z str;
}.

Definition set_task_queue (q : list Job) (n : nat) (self : TranscriberBot) :=
  mkBot q n (processing_lock self) (model self) (valid_models self)
    (model_change_limits self) (model_change_cooldown self)
    (handler_user_models self).

Definition set_processing_lock (l : bool) (self : TranscriberBot) :=
  mkBot (task_queue self) (unfinished_tasks self) l (model self)
    (valid_models self) (model_change_limits self)
    (model_change_cooldown self) (handler_user_models self).

Definition set_model_change_limits (m : gmap Z Z) (self : TranscriberBot) :=
  mkBot (task_queue self) (unfinished_tasks self) (processing_lock self)
    (model self) (valid_models self) m (model_change_cooldown self)
    (handler_user_models self).

Definition set_handler_user_models (m : gmap Z str) (self : TranscriberBot) :=
  mkBot (task_queue self) (unfinished_tasks self) (processing_lock self)
    (model self) (valid_models self) (model_change_limits self)
    (model_change_cooldown self) m.

(** [config.get(section, key, fallback=...)]. *)
Definition config_get (value : option str) (fallback : str) : str :=
  match value with Some v => v | None => fallback end.

(** [TranscriberBot.__init__], given the two entries of [config.ini] it
    reads ([WhisperSettings.Model] and [ModelSettings.ValidModels]). *)
Definition init (cfg_model cfg_valid_models : option str) : TranscriberBot :=
  {| task_queue := [];
     unfinished_tasks := 0;
     processing_lock := false;
     model := config_get cfg_model (lit "medium.en");
     valid_models :=
       split (lit ", ")
         (config_get cfg_valid_models (lit "tiny, base, small, medium, large"));
     model_change_limits := ∅;
     model_change_cooldown := 20;
     handler_user_models := ∅ |}.

(** ** The per-user model table of [transcription_handler] *)

(** Modelled from the spec: [get_whisper_model] is imported from
    [transcription_handler], which is not among the sources.  Section 4.2:
    "returns the user's current model or the process-wide default if none
    set.  Never fails." *)
Definition get_whisper_model (self : TranscriberBot) (user_id : Z) : str :=
  default (model self) (handler_user_models self !! user_id).

(** Modelled from the spec: [set_user_model] is imported from
    [transcription_handler], which is not among the sources.  Section 4.2:
    "updates the user's model"; membership in the valid-model set is checked
    by the caller, [model_command], which also records the time. *)
Definition set_user_model (user_id : Z) (new_model : str)
    (self : TranscriberBot) : TranscriberBot :=
  set_handler_user_models (<[user_id := new_model]> (handler_user_models self))
    self.

(** ** The task queue *)

(** [await self.task_queue.put(item)]: the queue is unbounded, so the item
    is appended at once. *)
Definition put (item : Job) (self : TranscriberBot) : TranscriberBot :=
  set_task_queue (task_queue self ++ [item]) (S (unfinished_tasks self)) self.

(** [self.task_queue.qsize()]. *)
Definition qsize (self : TranscriberBot) : nat := length (task_queue self).

(** [self.task_queue.get()] when an item is there: the head leaves the
    queue.  [None] stands for the suspended caller. *)
Definition get (self : TranscriberBot) : option (Job * TranscriberBot) :=
  match task_queue self with
  | [] => None
  | item :: q => Some (item, set_task_queue q (unfinished_tasks self) self)
  end.

(** [self.task_queue.task_done()]; the library raises [ValueError] when
    there is nothing left to finish ([None]). *)
Definition task_done (self : TranscriberBot) : option TranscriberBot :=
  match unfinished_tasks self with
  | O => None
  | S n => Some (set_task_queue (task_queue self) n self)
  end.

(** ** The admission path: [handle_message] *)

(** [str(n)] for an [int]. *)
Definition str_of_int (n : Z) : str := lit (pretty n).

Definition processing_now_text : str :=
  lit "Your request is next and is currently being processed.".

Definition jobs_ahead_text (n : Z) : str :=
  lit "Your request has been added to the queue. There are "
  ++ str_of_int n ++ lit " jobs ahead of yours.".

Definition no_url_text : str :=
  lit "No valid URL detected in your message. Please send a message that includes a valid URL. If you need help, type: /help".

(** [handle_message(update, context)].  The model read at its start only
    feeds a debug log line.  The put and the [qsize()] that follows it run
    without a suspension in between. *)
Definition handle_message (update : Update) (context_bot : Bot)
    (self : TranscriberBot) : TranscriberBot * list action :=
  match message_text update with
  | [] => (self, [])                  (* [update.message.text] is falsy *)
  | _ :: _ =>
      let urls := findall_url (message_text update) in
      match urls with
      | _ :: _ =>
          let self' := put (message_text update, context_bot, update) self in
          let queue_length := qsize self' in
          let response_text :=
            if (queue_length =? 1)%nat then processing_now_text
            else jobs_ahead_text (Z.of_nat queue_length - 1) in
          (self', [reply_text update response_text None])
      | [] => (self, [reply_text update no_url_text None])
      end
  end.

(** ** The model command: [model_command] *)

Definition HTML : option str := Some (lit "HTML").

Definition current_model_text (current_model models_list : str) : str :=
  lit "<b>Current model:</b>" ++ nl ++ lit "<code>" ++ current_model
  ++ lit "</code>" ++ nl ++ nl
  ++ lit "<b>Available models:</b>" ++ nl ++ models_list ++ nl ++ nl
  ++ lit "To change the model, use commands like:" ++ nl
  ++ lit "<code>/model medium.en</code>" ++ nl
  ++ lit "<code>/model large-v3</code>" ++ nl ++ nl
  ++ lit "<b>Model Details:</b>" ++ nl
  ++ lit "- <b>Tiny</b>: Fastest, uses ~1GB VRAM, about 32x faster than large." ++ nl
  ++ lit "- <b>Base</b>: Faster, uses ~1GB VRAM, about 16x faster than large." ++ nl
  ++ lit "- <b>Small</b>: Balanced, uses ~2GB VRAM, about 6x faster than large." ++ nl
  ++ lit "- <b>Medium</b>: More precise, uses ~5GB VRAM, about 2x faster than large." ++ nl
  ++ lit "- <b>Large</b>: Most precise, processes at real-time (1x speed), uses ~10GB VRAM." ++ nl ++ nl
  ++ lit "Note: '.en' models (e.g., 'tiny.en') are optimized for English and offer better accuracy for English audio. "
  ++ lit "As model size increases, the benefit of English optimization becomes less significant. Choose based on your "
  ++ lit "needs for speed, memory usage, and linguistic accuracy. "
  ++ lit "As a general guideline, larger models are more accurate but also slower. "
  ++ lit "I.e. best balance in speed vs. accuracy in English language is likely <code>medium.en</code>.".

Definition model_set_text (new_model : str) : str :=
  lit "Model set to: <code>" ++ new_model ++ lit "</code>".

Definition invalid_model_text (models_list : str) : str :=
  lit "Invalid model specified." ++ nl ++ nl
  ++ lit "Available models:" ++ nl ++ models_list.

(** [model_command(update, context)] with [context.args = args] and
    [time.time() = current_time] (the clock reading, in seconds). *)
Definition model_command (update : Update) (args : list str)
    (current_time : Z) (self : TranscriberBot) : TranscriberBot * list action :=
  let user_id := effective_user_id update in
  let models_list := join (lit ", ") (valid_models self) in
  match args with
  | [] =>
      let current_model := get_whisper_model self user_id in
      (self, [reply_text update (current_model_text current_model models_list) HTML])
  | new_model :: _ =>
      if bool_decide (new_model ∈ valid_models self) then
        let self1 := set_user_model user_id new_model self in
        let self2 :=
          set_model_change_limits
            (<[user_id := current_time]> (model_change_limits self1)) self1 in
        (self2, [reply_text update (model_set_text new_model) HTML])
      else
        (self, [reply_text update (invalid_model_text models_list) HTML])
  end.

(** ** The dispatcher: [process_queue] *)

(** Where one [process_queue] coroutine stands. *)
Inductive task_state : Type :=
  | AwaitingJob
      (** at [await self.task_queue.get()] *)
  | AwaitingGate (item : Job)
      (** at [async with TranscriberBot.processing_lock], held by another *)
  | Processing (item : Job) (model : str)
      (** inside the lock, at [await process_url_message(...)] *)
  | Stopped.
      (** an exception has left the [while True] loop *)

(** From [async with TranscriberBot.processing_lock] on: a free lock is
    taken without suspending, the model is looked up and the collaborator
    is entered.  Which of several waiting tasks gets a released lock is left
    to the schedule; the library's first-come order is one such schedule. *)
Definition enter_gate (item : Job) (self : TranscriberBot)
    : TranscriberBot * task_state * list action :=
  let '(message_text, bot, update) := item in
  if processing_lock self then (self, AwaitingGate item, [])
  else
    let self' := set_processing_lock true self in
    let user_id := effective_user_id update in
    let model := get_whisper_model self' user_id in
    (self', Processing item model,
     [process_url_message message_text bot update model]).

(** The coroutine runs on from a suspension at the queue or at the lock.
    [None]: what it waits for is not there yet. *)
Definition process_queue_resume (st : task_state) (self : TranscriberBot)
    : option (TranscriberBot * task_state * list action) :=
  match st with
  | AwaitingJob =>
      match get self with
      | Some (item, self') => Some (enter_gate item self')
      | None => None
      end
  | AwaitingGate item =>
      if processing_lock self then None else Some (enter_gate item self)
  | Processing _ _ | Stopped => None
  end.

(** The awaited collaborator call ends with [o].  Leaving the [async with]
    block releases the lock on both ways out; [task_done()] is reached only
    when the call returned; nothing catches what it raised. *)
Definition process_queue_return (st : task_state) (o : outcome)
    (self : TranscriberBot) : option (TranscriberBot * task_state * list action) :=
  match st with
  | Processing _ _ =>
      let self1 := set_processing_lock false self in
      match o with
      | Raised => Some (self1, Stopped, [])
      | Returned _ =>
          match task_done self1 with
          | Some self2 => Some (self2, AwaitingJob, [])
          | None => Some (self1, Stopped, [])
          end
      end
  | AwaitingJob | AwaitingGate _ | Stopped => None
  end.

(** ** The running process *)

(** The bot and the [process_queue] tasks created so far. *)
Record System : Type := mkSystem {
  bot : TranscriberBot;
  tasks : list task_state;
}.

(** What the event loop can run next. *)
Inductive event : Type :=
  | Message (update : Update) (context_bot : Bot)
  | ModelCommand (update : Update) (args : list str) (current_time : Z)
  | Spawn
      (** [loop.create_task(self.process_queue())] in [run] *)
  | Resume (i : nat)
  | Collaborator (i : nat) (o : outcome).

Definition step (sys : System) (e : event) : option (System * list action) :=
  match e with
  | Message update context_bot =>
      let '(self', acts) := handle_message update context_bot (bot sys) in
      Some (mkSystem self' (tasks sys), acts)
  | ModelCommand update args current_time =>
      let '(self', acts) := model_command update args current_time (bot sys) in
      Some (mkSystem self' (tasks sys), acts)
  | Spawn => Some (mkSystem (bot sys) (tasks sys ++ [AwaitingJob]), [])
  | Resume i =>
      st ← tasks sys !! i;
      '(self', st', acts) ← process_queue_resume st (bot sys);
      Some (mkSystem self' (<[i := st']> (tasks sys)), acts)
  | Collaborator i o =>
      st ← tasks sys !! i;
      '(self', st', acts) ← process_queue_return st o (bot sys);
      Some (mkSystem self' (<[i := st']> (tasks sys)), acts)
  end.

(** A schedule run from [sys], with everything it did to the outside. *)
Fixpoint run (sys : System) (es : list event) : option (System * list action) :=
  match es with
  | [] => Some (sys, [])
  | e :: es' =>
      '(sys1, acts1) ← step sys e;
      '(sys2, acts2) ← run sys1 es';
      Some (sys2, acts1 ++ acts2)
  end.

(** The process right after [TranscriberBot()]. *)
Definition start (cfg_model cfg_valid_models : option str) : System :=
  mkSystem (init cfg_model cfg_valid_models) [].

Inductive reachable (cfg_model cfg_valid_models : option str) : System → Prop :=
  | reachable_start : reachable cfg_model cfg_valid_models (start cfg_model cfg_valid_models)
  | reachable_step sys e sys' acts :
      reachable cfg_model cfg_valid_models sys →
      step sys e = Some (sys', acts) →
      reachable cfg_model cfg_valid_models sys'.

(** ** Observations on states and outputs *)

Definition is_processing (st : task_state) : bool :=
  match st with Processing _ _ => true | _ => false end.

Definition holds_job (st : task_state) : bool :=
  match st with AwaitingJob => false | _ => true end.

Fixpoint count_tasks (p : task_state → bool) (l : list task_state) : nat :=
  match l with
  | [] => O
  | st :: l' => ((if p st then 1 else 0) + count_tasks p l')%nat
  end.

(** The number of collaborator calls in flight. *)
Definition in_flight (sys : System) : nat :=
  count_tasks is_processing (tasks sys).

(** The two facts every reachable state satisfies: the lock is held exactly
    when one call is in flight, and the queue's count of unfinished items
    covers the queued items and those a task has taken. *)
Definition invariant (sys : System) : Prop :=
  in_flight sys = (if processing_lock (bot sys) then 1 else 0)%nat
  ∧ unfinished_tasks (bot sys)
    = (length (task_queue (bot sys)) + count_tasks holds_job (tasks sys))%nat.

(** ** Sample inputs: the scenarios of the spec's section 8 *)

Definition fallback_bot : TranscriberBot := init None None.

Definition hello_42 : Update := mkUpdate 42 (lit "hello, no links here").

Definition link_42 : Update :=
  mkUpdate 42 (lit "check this out http://example.com/a").

Definition links_7 : Update :=
  mkUpdate 7 (lit "http://a.example/x then https://b.example/y").


Definition model_42 : Update := mkUpdate 42 (lit "/model").

(** Following the spec's words (section 4.5, "scheme http or https followed
    by non-whitespace"): [text] has a substring made of [http://] or
    [https://] and at least one non-whitespace character. *)
Definition contains_url_shaped (text : str) : Prop :=
  ∃ pre scheme c rest,
    text = pre ++ scheme ++ lit "://" ++ c :: rest
    ∧ (scheme = lit "http" ∨ scheme = lit "https")
    ∧ Py_UNICODE_ISSPACE c = false.

(** [n] successive [get]s, as long as items are there. *)
Fixpoint drain (n : nat) (self : TranscriberBot) : list Job * TranscriberBot :=
  match n with
  | O => ([], self)
  | S n' =>
      match get self with
      | Some (item, self') =>
          let '(items, self'') := drain n' self' in (item :: items, self'')
      | None => ([], self)
      end
  end.

(** The items put one after the other. *)
Definition put_all (items : list Job) (self : TranscriberBot) : TranscriberBot :=
  foldl (λ s item, put item s) self items.

(** ** The help command: [help_command] *)

(** The module-level [version_number], which the class attribute copies. *)
Definition version_number : str := lit "0.12".

Definition help_text (version current_model models_list : str) : str :=
  lit "<b>Welcome to the Whisper Transcriber Bot!</b>" ++ nl ++ nl
  ++ lit "<b>Version:</b> " ++ version ++ nl ++ nl
  ++ lit "<b>How to Use:</b>" ++ nl
  ++ lit "- Send any supported media URL to have its audio transcribed." ++ nl
  ++ lit "- Use /model to change the transcription model." ++ nl
  ++ lit "- Use /help or /about to display this help message." ++ nl ++ nl
  ++ lit "<b>Whisper model currently in use:</b>" ++ nl
  ++ lit "<code>" ++ current_model ++ lit "</code>" ++ nl ++ nl
  ++ lit "<b>Available Whisper models:</b>" ++ nl
  ++ models_list ++ nl ++ nl
  ++ lit "<b>Bot code by FlyingFathead.</b>" ++ nl
  ++ lit "Source code on <a href='https://github.com/FlyingFathead/whisper-transcriber-telegram-bot/'>GitHub</a>." ++ nl ++ nl
  ++ lit "<b>Disclaimer:</b>" ++ nl
  ++ lit "The original author is NOT responsible for how this bot is utilized. All code and outputs are provided 'AS IS' without warranty of any kind. Users assume full responsibility for the operation and output of the bot. This applies to both legal and ethical responsibilities. Use at your own risk." ++ nl.

(** [help_command(update, context)]: the text is built from [self.model]
    and [self.valid_models]; the user's own model is not looked up. *)
Definition help_command (update : Update) (self : TranscriberBot)
    : TranscriberBot * list action :=
  let models_list := join (lit ", ") (valid_models self) in
  (self, [reply_text update (help_text version_number (model self) models_list) HTML]).

(** ** The connection loop: [run] *)

(** One pass through the [try] block of [run]: an exception is raised, with
    [loop.create_task(self.process_queue())] already done or not yet
    reached, or [run_polling()] returns. *)
Inductive attempt : Type :=
  | Raises (task_created : bool)
  | Polled.

(** What [run] does that outlives a pass of its loop. *)
Inductive run_effect : Type :=
  | create_task_process_queue
  | sleep (seconds : Z).

(** [TranscriberBot.run], one [attempt] per pass of [while not connected].
    [None]: the loop is still running when the listed passes are over. *)
Fixpoint bot_run (restart_on_failure : bool) (attempts : list attempt)
    : option (list run_effect) :=
  match attempts with
  | [] => None
  | Polled :: _ => Some [create_task_process_queue]
  | Raises task_created :: attempts' =>
      let made := if task_created then [create_task_process_queue] else [] in
      if restart_on_failure then
        effects ← bot_run restart_on_failure attempts';
        Some (made ++ sleep 10 :: effects)
      else Some made
  end.

(** ** Observations on schedules *)

(** The queue items behind the collaborator calls among [acts], in order. *)
Fixpoint calls (acts : list action) : list Job :=
  match acts with
  | [] => []
  | process_url_message text b u _ :: acts' => (text, b, u) :: calls acts'
  | reply_text _ _ _ :: acts' => calls acts'
  end.

(** The queue items of the messages among [es] in which [findall] finds a
    URL, in order of arrival. *)
Fixpoint admitted (es : list event) : list Job :=
  match es with
  | [] => []
  | Message update context_bot :: es' =>
      match findall_url (message_text update) with
      | [] => admitted es'
      | _ :: _ => (message_text update, context_bot, update) :: admitted es'
      end
  | _ :: es' => admitted es'
  end.

Definition is_spawn (e : event) : bool :=
  match e with Spawn => true | _ => false end.

(** [e] is a model command of user [user_id]. *)
Definition is_model_command_of (user_id : Z) (e : event) : bool :=
  match e with
  | ModelCommand update _ _ => bool_decide (effective_user_id update = user_id)
  | _ => false
  end.


(** How many tasks the effects of [run] have created, and how long it has
    slept. *)
Fixpoint tasks_created (effects : list run_effect) : nat :=
  match effects with
  | [] => O
  | create_task_process_queue :: effects' => S (tasks_created effects')
  | sleep _ :: effects' => tasks_created effects'
  end.

Fixpoint time_slept (effects : list run_effect) : Z :=
  match effects with
  | [] => 0
  | sleep seconds :: effects' => seconds + time_slept effects'
  | create_task_process_queue :: effects' => time_slept effects'
  end.

Definition failed (a : attempt) : bool :=
  match a with Raises _ => true | Polled => false end.

Definition reached_create_task (a : attempt) : bool :=
  match a with Raises task_created => task_created | Polled => true end.

(** The job a task holds while it waits at the lock. *)
Definition gate_job (st : task_state) : list Job :=
  match st with AwaitingGate item => [item] | _ => [] end.

(** The jobs taken from the queue and not yet handed to the collaborator. *)
Definition waiting (ts : list task_state) : list Job := flat_map gate_job ts.

(** ** Sample schedules *)

(** The state a schedule leads to from the process started without a
    configuration file (the start itself when the schedule cannot run). *)
Definition after (es : list event) : System :=
  match run (start None None) es with
  | Some (sys, _) => sys
  | None => start None None
  end.

(** One dispatcher; user 42 picks [small] and submits a link, user 7
    submits two links, and the dispatcher enters the first job. *)
Definition busy_schedule : list event :=
  [Spawn; ModelCommand model_42 [lit "small"] 100;
   Message link_42 ApplicationBot; Message links_7 ApplicationBot; Resume 0].

(** Two dispatchers; the second takes a job of user 42 while the first holds
    the lock, user 42 then changes the model, and the second gets the lock
    once the first call has returned. *)
Definition handover_schedule : list event :=
  [Spawn; Spawn; Message links_7 ApplicationBot; Message link_42 ApplicationBot;
   Resume 0; Resume 1; ModelCommand model_42 [lit "large"] 100;
   Collaborator 0 (Returned true)].

(** One dispatcher, stopped by a collaborator call that raised. *)
Definition crash_schedule : list event :=
  [Spawn; Message link_42 ApplicationBot; Resume 0; Collaborator 0 Raised].

(** * Properties *)

(** ** The URL pattern *)

Lemma strip_prefix_Some p s r : strip_prefix p s = Some r ↔ s = p ++ r.
Proof.
  revert s. induction p as [|a p IH]; intros s; simpl.
  - split; congruence.
  - destruct s as [|b s]; [split; discriminate|].
    destruct (N.eqb_spec a b) as [->|Hne].
    + rewrite IH. split; congruence.
    + split; [discriminate | congruence].
Qed.

Lemma strip_prefix_app p r : strip_prefix p (p ++ r) = Some r.
Proof. by apply strip_prefix_Some. Qed.

Lemma span_S_app s m r : span_S s = (m, r) → s = m ++ r.
Proof.
  revert m r. induction s as [|c s IH]; intros m r; simpl.
  - by intros [= <- <-].
  - destruct (Py_UNICODE_ISSPACE c); [by intros [= <- <-]|].
    destruct (span_S s) as [m' r'] eqn:E. intros [= <- <-].
    by rewrite (IH m' r').
Qed.

Lemma span_S_nil s r :
  span_S s = ([], r) ↔
  r = s ∧ match s with [] => True | c :: _ => Py_UNICODE_ISSPACE c = true end.
Proof.
  destruct s as [|c s]; simpl.
  - split; [by intros [= <-] | by intros [-> _]].
  - destruct (Py_UNICODE_ISSPACE c).
    + split; [by intros [= <-] | by intros [-> _]].
    + destruct (span_S s). split; [discriminate | by intros [_ ?]].
Qed.

Lemma match_tail_Some s :
  is_Some (match_tail s) ↔
  ∃ c rest, s = lit "://" ++ c :: rest ∧ Py_UNICODE_ISSPACE c = false.
Proof.
  unfold match_tail. split.
  - destruct (strip_prefix (lit "://") s) as [r|] eqn:E; [|by intros [? ?]].
    apply strip_prefix_Some in E as ->.
    destruct (span_S r) as [[|c m] rest] eqn:Es; [by intros [? ?]|]. intros _.
    destruct r as [|c' r]; [discriminate|]. simpl in Es.
    destruct (Py_UNICODE_ISSPACE c') eqn:Ec; [discriminate|]. eauto.
  - intros (c & rest & -> & Hc). rewrite strip_prefix_app. simpl.
    rewrite Hc. destruct (span_S rest). eauto.
Qed.

Lemma match_here_Some s :
  is_Some (match_here s) ↔
  ∃ scheme c rest,
    s = scheme ++ lit "://" ++ c :: rest
    ∧ (scheme = lit "http" ∨ scheme = lit "https")
    ∧ Py_UNICODE_ISSPACE c = false.
Proof.
  unfold match_here. split.
  - destruct (strip_prefix (lit "http") s) as [r|] eqn:E; [|by intros [? ?]].
    apply strip_prefix_Some in E as ->.
    destruct r as [|c r].
    { destruct (match_tail []) as [[??]|] eqn:Et; [|by intros [? ?]].
      assert (is_Some (match_tail [])) as Hs by (rewrite Et; eauto).
      apply match_tail_Some in Hs as (? & ? & ? & ?). discriminate. }
    destruct (N.eqb_spec c 115) as [->|Hne].
    + destruct (match_tail r) as [[m rest]|] eqn:Et.
      * intros _.
        assert (is_Some (match_tail r)) as Hs by (rewrite Et; eauto).
        apply match_tail_Some in Hs as (c & rest' & -> & Hc).
        exists (lit "https"), c, rest'. split_and!; auto.
      * destruct (match_tail (115%N :: r)) as [[??]|] eqn:Et'; [|by intros [? ?]].
        assert (is_Some (match_tail (115%N :: r))) as Hs by (rewrite Et'; eauto).
        apply match_tail_Some in Hs as (? & ? & ? & ?). discriminate.
    + destruct (match_tail (c :: r)) as [[m rest]|] eqn:Et; [|by intros [? ?]].
      intros _.
      assert (is_Some (match_tail (c :: r))) as Hs by (rewrite Et; eauto).
      apply match_tail_Some in Hs as (c' & rest' & -> & Hc).
      exists (lit "http"), c', rest'. split_and!; auto.
  - intros (scheme & c & rest & -> & [-> | ->] & Hc).
    + change (lit "http" ++ lit "://" ++ c :: rest)
        with (lit "http" ++ (lit "://" ++ c :: rest)).
      rewrite strip_prefix_app.
      assert (is_Some (match_tail (lit "://" ++ c :: rest))) as [[m r] Hm]
        by (apply match_tail_Some; eauto).
      rewrite Hm. simpl. eauto.
    + change (lit "https" ++ lit "://" ++ c :: rest)
        with (lit "http" ++ (115%N :: lit "://" ++ c :: rest)).
      rewrite strip_prefix_app.
      assert (is_Some (match_tail (lit "://" ++ c :: rest))) as [[m r] Hm]
        by (apply match_tail_Some; eauto).
      rewrite N.eqb_refl, Hm. eauto.
Qed.

Lemma match_tail_rest t m rest : match_tail t = Some (m, rest) → t = m ++ rest.
Proof.
  unfold match_tail.
  destruct (strip_prefix (lit "://") t) as [r|] eqn:E; [|discriminate].
  apply strip_prefix_Some in E as ->.
  destruct (span_S r) as [[|c m0] rest0] eqn:Es; [discriminate|].
  intros [= <- <-]. by apply span_S_app in Es as ->.
Qed.

(** A match is a non-empty prefix: it leaves strictly less to scan. *)
Lemma match_here_rest s m rest :
  match_here s = Some (m, rest) → s = m ++ rest ∧ m ≠ [].
Proof.
  unfold match_here.
  destruct (strip_prefix (lit "http") s) as [r|] eqn:E; [|discriminate].
  apply strip_prefix_Some in E as ->.
  assert (∀ t pre m1 rest1, match_tail t = Some (m1, rest1) →
            Some (pre ++ m1, rest1) = Some (m, rest) → pre ≠ [] →
            pre ++ t = m ++ rest ∧ m ≠ []) as Hfin.
  { intros t pre m1 rest1 ->%match_tail_rest [= <- <-] Hpre.
    rewrite app_assoc. split; [done|]. by destruct pre. }
  destruct r as [|c r].
  - destruct (match_tail []) as [[m1 rest1]|] eqn:E1; [|discriminate].
    intros Hm. by eapply Hfin.
  - destruct (c =? 115)%N eqn:Ec.
    + apply N.eqb_eq in Ec as ->.
      destruct (match_tail r) as [[m1 rest1]|] eqn:E1.
      * intros Hm. by apply (Hfin r (lit "https") m1 rest1).
      * destruct (match_tail (115%N :: r)) as [[m2 rest2]|] eqn:E2; [|discriminate].
        intros Hm. by eapply Hfin.
    + destruct (match_tail (c :: r)) as [[m1 rest1]|] eqn:E1; [|discriminate].
      intros Hm. by eapply Hfin.
Qed.

(** Fuel beyond the length of the text changes nothing: [findall_url] is
    the whole scan. *)
Lemma findall_go_fuel fuel s :
  (length s ≤ fuel)%nat → findall_go fuel s = findall_go (length s) s.
Proof.
  revert s. induction (lt_wf fuel) as [fuel _ IH]. intros s Hlen.
  destruct s as [|c s]; [by destruct fuel|].
  destruct fuel as [|fuel]; [simpl in Hlen; lia|].
  cbn [findall_go length].
  destruct (match_here (c :: s)) as [[m rest]|] eqn:E.
  - apply match_here_rest in E as [E Hm].
    assert (length rest ≤ length s)%nat as Hr.
    { apply (f_equal length) in E. rewrite length_app in E.
      destruct m; [done|]. simpl in *. lia. }
    simpl in Hlen.
    rewrite (IH fuel) by lia. by rewrite (IH (length s)) by lia.
  - simpl in Hlen.
    rewrite (IH fuel) by lia. done.
Qed.

Lemma findall_go_found fuel s :
  findall_go fuel s ≠ [] → ∃ pre t, s = pre ++ t ∧ is_Some (match_here t).
Proof.
  revert s. induction fuel as [|fuel IH]; intros s; simpl; [done|].
  destruct s as [|c s]; [done|].
  destruct (match_here (c :: s)) as [[m rest]|] eqn:E.
  - intros _. exists [], (c :: s). rewrite E. eauto.
  - intros (pre & t & -> & Ht)%IH. by exists (c :: pre), t.
Qed.

Lemma findall_go_finds fuel pre t :
  (length (pre ++ t) ≤ fuel)%nat → is_Some (match_here t) →
  findall_go fuel (pre ++ t) ≠ [].
Proof.
  revert fuel. induction pre as [|c pre IH]; intros fuel Hlen Ht.
  - destruct Ht as [[m rest] Ht]. simpl in *.
    destruct (match_here_rest _ _ _ Ht) as [-> Hm].
    destruct m as [|c m]; [done|].
    destruct fuel as [|fuel]; [simpl in Hlen; lia|].
    simpl in *. by rewrite Ht.
  - destruct fuel as [|fuel]; [simpl in Hlen; lia|].
    cbn [findall_go app].
    change (c :: pre ++ t) with ((c :: pre) ++ t).
    destruct (match_here ((c :: pre) ++ t)) as [[m rest]|]; [done|].
    apply IH; [simpl in Hlen; lia | done].
Qed.

(** The code's test [if urls:] against the spec's description. *)
Lemma findall_url_contains text :
  findall_url text ≠ [] ↔ contains_url_shaped text.
Proof.
  unfold findall_url, contains_url_shaped. split.
  - intros (pre & t & -> & Ht)%findall_go_found.
    apply match_here_Some in Ht as (scheme & c & rest & -> & Hs & Hc).
    by exists pre, scheme, c, rest.
  - intros (pre & scheme & c & rest & -> & Hs & Hc).
    apply findall_go_finds; [done|].
    apply match_here_Some. by exists scheme, c, rest.
Qed.


(** The scan on a text with two matches, a bare scheme and a trailing one. *)
Example findall_two :
  findall_url (lit "see http://a.b/c and https://d.e, ok https:// http://") =
  [lit "http://a.b/c"; lit "https://d.e,"].
Proof. vm_compute. reflexivity. Qed.

(** A no-break space (U+00A0) ends a match like any other whitespace. *)
Example findall_nbsp :
  findall_url (lit "http://a" ++ [0xA0%N] ++ lit "b") = [lit "http://a"].
Proof. vm_compute. reflexivity. Qed.

Example split_fallback :
  valid_models fallback_bot =
  [lit "tiny"; lit "base"; lit "small"; lit "medium"; lit "large"].
Proof. vm_compute. reflexivity. Qed.

Example str_of_int_12 : str_of_int 12 = lit "12".
Proof. vm_compute. reflexivity. Qed.

(** ** The admission path *)

Lemma handle_message_url update context_bot self :
  contains_url_shaped (message_text update) →
  handle_message update context_bot self =
    (put (message_text update, context_bot, update) self,
     [reply_text update
        (if (S (qsize self) =? 1)%nat then processing_now_text
         else jobs_ahead_text (Z.of_nat (S (qsize self)) - 1)) None]).
Proof.
  intros Hurl%findall_url_contains. unfold handle_message.
  destruct (message_text update) as [|c text] eqn:Etext; [done|].
  destruct (findall_url (c :: text)) as [|u urls]; [done|].
  assert (qsize (put (c :: text, context_bot, update) self) = S (qsize self))
    as -> by (unfold qsize, put; simpl; rewrite length_app; simpl; lia).
  done.
Qed.







(** C8: the reply to an admitted message is fixed by the queue length read
    right after the put: the "being processed" wording when that length is
    1, otherwise the count of jobs ahead, which is that length minus one;
    so a submission that finds one job waiting is told of 1 job ahead. *)
Theorem reply_reports_queue_position update context_bot self :
  contains_url_shaped (message_text update) →
  qsize (handle_message update context_bot self).1 = S (qsize self)
  ∧ (handle_message update context_bot self).2
    = [reply_text update
         (if decide (qsize (handle_message update context_bot self).1 = 1%nat)
          then processing_now_text
          else jobs_ahead_text
                 (Z.of_nat (qsize (handle_message update context_bot self).1) - 1))
         None]
  ∧ (qsize self = 1%nat →
     (handle_message update context_bot self).2
     = [reply_text update
          (lit "Your request has been added to the queue. There are 1 jobs ahead of yours.")
          None]).
Proof.
  intros Hurl. rewrite handle_message_url by done. simpl.
  assert (qsize (put (message_text update, context_bot, update) self)
          = S (qsize self)) as Hq
    by (unfold qsize, put; simpl; rewrite length_app; simpl; lia).
  rewrite Hq. split; [done|]. split.
  - destruct (qsize self); by case_decide.
  - by intros ->.
Qed.

Lemma link_42_has_url : contains_url_shaped (message_text link_42).
Proof. apply findall_url_contains. vm_compute. discriminate. Qed.

Lemma links_7_has_url : contains_url_shaped (message_text links_7).
Proof. apply findall_url_contains. vm_compute. discriminate. Qed.

Lemma reply_reports_queue_position_witness :
  qsize (handle_message links_7 ApplicationBot
           (handle_message link_42 ApplicationBot fallback_bot).1).1 = 2%nat
  ∧ (handle_message links_7 ApplicationBot
       (handle_message link_42 ApplicationBot fallback_bot).1).2
    = [reply_text links_7
         (lit "Your request has been added to the queue. There are 1 jobs ahead of yours.")
         None].
Proof.
  destruct (reply_reports_queue_position links_7 ApplicationBot
              (handle_message link_42 ApplicationBot fallback_bot).1
              links_7_has_url) as (H1 & _ & H3).
  split; [exact H1 | apply H3; reflexivity].
Defined.

(** The first of the two submissions is told that it is being processed. *)
Example first_submission_processing_now :
  handle_message link_42 ApplicationBot fallback_bot
  = (put (message_text link_42, ApplicationBot, link_42) fallback_bot,
     [reply_text link_42 processing_now_text None]).
Proof. by rewrite handle_message_url by apply link_42_has_url. Qed.

(** What a task hands to the collaborator is the queue item it took,
    component for component. *)
Lemma process_queue_resume_call st self self' item m acts :
  process_queue_resume st self = Some (self', Processing item m, acts) →
  acts = [process_url_message item.1.1 item.1.2 item.2 m]
  ∧ m = get_whisper_model self (effective_user_id item.2)
  ∧ processing_lock self = false ∧ processing_lock self' = true
  ∧ match st with
    | AwaitingJob => head (task_queue self) = Some item
    | AwaitingGate held => held = item
    | _ => False
    end.
Proof.
  unfold process_queue_resume, get, enter_gate.
  destruct st as [|[[t b] u]|?|]; try discriminate.
  - destruct (task_queue self) as [|[[t b] u] q] eqn:Eq; [discriminate|].
    simpl. destruct (processing_lock self) eqn:El; [discriminate|].
    intros [= <- <- <- <-]. done.
  - destruct (processing_lock self) eqn:El; [discriminate|].
    intros [= <- <- <- <-]. done.
Qed.



(** ** The model command *)

(** A valid model is always accepted: the table of earlier changes is
    written, never read. *)
Lemma model_command_valid update new_model args current_time self :
  new_model ∈ valid_models self →
  model_command update (new_model :: args) current_time self
  = (set_model_change_limits
       (<[effective_user_id update := current_time]> (model_change_limits self))
       (set_user_model (effective_user_id update) new_model self),
     [reply_text update (model_set_text new_model) HTML]).
Proof. intros Hin. unfold model_command. by rewrite bool_decide_eq_true_2. Qed.

(** C1, at the failing input: user 42 sets [small] at time 100 and asks for
    [large] at time 105, inside the 20 second cooldown.  The second command
    is answered "Model set to", the stored model becomes [large] and the
    recorded time becomes 105: nothing compares the clock with
    [model_change_limits]. *)
Theorem cooldown_not_enforced :
  105 - 100
    < model_change_cooldown (model_command model_42 [lit "small"] 100 fallback_bot).1
  ∧ get_whisper_model
      (model_command model_42 [lit "small"] 100 fallback_bot).1 42 = lit "small"
  ∧ model_change_limits
      (model_command model_42 [lit "small"] 100 fallback_bot).1 !! 42 = Some 100
  ∧ (model_command model_42 [lit "large"] 105
       (model_command model_42 [lit "small"] 100 fallback_bot).1).2
    = [reply_text model_42 (model_set_text (lit "large")) HTML]
  ∧ get_whisper_model
      (model_command model_42 [lit "large"] 105
         (model_command model_42 [lit "small"] 100 fallback_bot).1).1 42
    = lit "large"
  ∧ model_change_limits
      (model_command model_42 [lit "large"] 105
         (model_command model_42 [lit "small"] 100 fallback_bot).1).1 !! 42
    = Some 105.
Proof. vm_compute. split_and!; reflexivity. Qed.

(** C9: a requested model outside [valid_models] is answered with the
    invalid-model text and the list of valid models, and nothing is
    changed: neither the user's model nor the recorded time of the last
    change. *)
Theorem invalid_model_rejected update new_model args current_time self :
  new_model ∉ valid_models self →
  model_command update (new_model :: args) current_time self
  = (self,
     [reply_text update
        (invalid_model_text (join (lit ", ") (valid_models self))) HTML])
  ∧ (∀ user_id,
       get_whisper_model
         (model_command update (new_model :: args) current_time self).1 user_id
       = get_whisper_model self user_id
       ∧ model_change_limits
           (model_command update (new_model :: args) current_time self).1 !! user_id
         = model_change_limits self !! user_id).
Proof.
  intros Hnot. unfold model_command. by rewrite bool_decide_eq_false_2.
Qed.

Lemma invalid_model_rejected_witness :
  model_command model_42 [lit "huge"] 100 fallback_bot
  = (fallback_bot,
     [reply_text model_42
        (lit "Invalid model specified." ++ nl ++ nl ++ lit "Available models:"
         ++ nl ++ lit "tiny, base, small, medium, large") HTML]).
Proof.
  assert (lit "huge" ∉ valid_models fallback_bot) as Hnot
    by (apply (bool_decide_unpack _); vm_compute; exact I).
  destruct (invalid_model_rejected model_42 (lit "huge") [] 100 fallback_bot Hnot)
    as [H _].
  exact H.
Defined.

(** ** The task queue *)

Lemma drain_queue n self :
  (length (task_queue self) ≤ n)%nat →
  (drain n self).1 = task_queue self ∧ task_queue (drain n self).2 = [].
Proof.
  revert self. induction n as [|n IH]; intros self Hlen.
  - destruct (task_queue self) eqn:Eq; [done | simpl in Hlen; lia].
  - simpl. unfold get.
    destruct (task_queue self) as [|item q] eqn:Eq; [done|].
    specialize (IH (set_task_queue q (unfinished_tasks self) self)).
    destruct (drain n (set_task_queue q (unfinished_tasks self) self))
      as [items self''].
    simpl in *. destruct IH as [-> ->]; [lia | done].
Qed.

Lemma task_queue_put_all items self :
  task_queue (put_all items self) = task_queue self ++ items.
Proof.
  revert self. induction items as [|item items IH]; intros self; simpl.
  - by rewrite app_nil_r.
  - unfold put_all in *. simpl. rewrite IH. simpl. by rewrite <- app_assoc.
Qed.

(** C3: whatever items are put on the queue, and whatever it held before,
    successive gets return the earlier items and then the new ones in the
    order they were put, and leave the queue empty. *)
Theorem task_queue_fifo items self :
  (drain (qsize self + length items) (put_all items self)).1
  = task_queue self ++ items
  ∧ task_queue (drain (qsize self + length items) (put_all items self)).2 = [].
Proof.
  rewrite <- task_queue_put_all. apply drain_queue.
  rewrite task_queue_put_all, length_app. unfold qsize. lia.
Qed.

(** Gets that run between the puts see the same order: what one get returns
    is the oldest item still queued. *)
Lemma get_put item self :
  get (put item self)
  = match get self with
    | Some (first, self') => Some (first, put item self')
    | None => Some (item, set_task_queue [] (S (unfinished_tasks self)) self)
    end.
Proof. unfold get, put. simpl. by destruct (task_queue self). Qed.

(** The handlers use the queue through [put] and [get] only: a step leaves
    it alone, appends one item at its tail, or removes its head. *)
Lemma step_queue_discipline sys e sys' acts :
  step sys e = Some (sys', acts) →
  task_queue (bot sys') = task_queue (bot sys)
  ∨ (∃ item, task_queue (bot sys') = task_queue (bot sys) ++ [item])
  ∨ (∃ item, task_queue (bot sys) = item :: task_queue (bot sys')).
Proof.
  destruct sys as [self ts].
  destruct e as [update context_bot|update args now| |i|i o]; simpl.
  - unfold handle_message.
    destruct (message_text update) as [|c text]; [intros [= <- <-]; by left|].
    destruct (findall_url (c :: text)); intros [= <- <-]; simpl; eauto.
  - unfold model_command. destruct args as [|new_model args];
      [|case_bool_decide]; intros [= <- <-]; by left.
  - intros [= <- <-]. by left.
  - destruct (ts !! i) as [st|]; [|done]. simpl.
    destruct st as [|[[t b] u]|item m|]; simpl; try done.
    + unfold get. destruct (task_queue self) as [|[[t b] u] q] eqn:Eq; [done|].
      simpl. unfold enter_gate. simpl.
      destruct (processing_lock self); intros [= <- <-]; simpl;
        right; right; eauto.
    + destruct (processing_lock self) eqn:El; [done|]. simpl.
      unfold enter_gate. intros [= <- <-]. by left.
  - destruct (ts !! i) as [st|]; [|done]. simpl.
    destruct st as [|item|item m|]; simpl; try done.
    destruct o as [delivered|]; [unfold task_done; simpl;
      destruct (unfinished_tasks self)|]; intros [= <- <-]; by left.
Qed.

(** ** The dispatcher *)

Lemma count_tasks_app p l1 l2 :
  count_tasks p (l1 ++ l2) = (count_tasks p l1 + count_tasks p l2)%nat.
Proof. induction l1 as [|st l1 IH]; simpl; [done|]. rewrite IH. lia. Qed.

Lemma count_tasks_insert p l i st st' :
  l !! i = Some st →
  (count_tasks p (<[i := st']> l) + (if p st then 1 else 0)
   = count_tasks p l + (if p st' then 1 else 0))%nat.
Proof.
  revert i. induction l as [|x l IH]; intros i Hi; [done|].
  destruct i as [|i]; simpl in *.
  - injection Hi as ->. lia.
  - specialize (IH i Hi). lia.
Qed.

Lemma count_tasks_lookup p l i st :
  l !! i = Some st → p st = true → (1 ≤ count_tasks p l)%nat.
Proof.
  revert i. induction l as [|x l IH]; intros i Hi Hp; [done|].
  destruct i as [|i]; simpl in *.
  - injection Hi as ->. rewrite Hp. lia.
  - specialize (IH i Hi Hp). lia.
Qed.

Lemma invariant_start cfg_model cfg_valid_models :
  invariant (start cfg_model cfg_valid_models).
Proof. by split. Qed.

Lemma invariant_step sys e sys' acts :
  invariant sys → step sys e = Some (sys', acts) → invariant sys'.
Proof.
  intros [Hgate Hunf]. unfold invariant, in_flight in *.
  destruct sys as [self ts]. simpl in *.
  destruct e as [update context_bot|update args now| |i|i o]; simpl.
  - (* handle_message *)
    unfold handle_message.
    destruct (message_text update) as [|c text];
      [by intros [= <- <-]|].
    destruct (findall_url (c :: text)); intros [= <- <-]; simpl; [done|].
    split; [done|]. rewrite length_app. simpl. lia.
  - (* model_command *)
    unfold model_command. destruct args as [|new_model args];
      [by intros [= <- <-]|].
    case_bool_decide; by intros [= <- <-].
  - (* create_task *)
    intros [= <- <-]. simpl. rewrite !count_tasks_app. simpl.
    split; lia.
  - (* a task runs on *)
    destruct (ts !! i) as [st|] eqn:Ei; [|done]. simpl.
    destruct st as [|item|item m|]; simpl; try done.
    + unfold get. destruct (task_queue self) as [|item q] eqn:Eq; [done|].
      simpl. unfold enter_gate. destruct item as [[t b] u]. simpl.
      pose proof (count_tasks_insert is_processing ts i AwaitingJob) as Hp.
      pose proof (count_tasks_insert holds_job ts i AwaitingJob) as Hh.
      destruct (processing_lock self) eqn:El; intros [= <- <-]; simpl in *.
      * specialize (Hp (AwaitingGate (t, b, u)) Ei).
        specialize (Hh (AwaitingGate (t, b, u)) Ei).
        rewrite El. simpl in *. split; lia.
      * specialize (Hp (Processing (t, b, u)
                          (default (model self) (handler_user_models self
                             !! effective_user_id u))) Ei).
        specialize (Hh (Processing (t, b, u)
                          (default (model self) (handler_user_models self
                             !! effective_user_id u))) Ei).
        unfold get_whisper_model. simpl in *. split; lia.
    + destruct (processing_lock self) eqn:El; [done|]. simpl.
      unfold enter_gate. destruct item as [[t b] u]. rewrite El.
      intros [= <- <-]. simpl.
      pose proof (count_tasks_insert is_processing ts i _
                    (Processing (t, b, u)
                       (get_whisper_model (set_processing_lock true self)
                          (effective_user_id u))) Ei) as Hp.
      pose proof (count_tasks_insert holds_job ts i _
                    (Processing (t, b, u)
                       (get_whisper_model (set_processing_lock true self)
                          (effective_user_id u))) Ei) as Hh.
      simpl in *. split; lia.
  - (* the collaborator call of a task ends *)
    destruct (ts !! i) as [st|] eqn:Ei; [|done]. simpl.
    destruct st as [|item|item m|]; simpl; try done.
    pose proof (count_tasks_lookup is_processing ts i _ Ei eq_refl) as Hone.
    pose proof (count_tasks_lookup holds_job ts i _ Ei eq_refl) as Hheld.
    pose proof (count_tasks_insert is_processing ts i _ AwaitingJob Ei) as Hp1.
    pose proof (count_tasks_insert holds_job ts i _ AwaitingJob Ei) as Hh1.
    pose proof (count_tasks_insert is_processing ts i _ Stopped Ei) as Hp2.
    pose proof (count_tasks_insert holds_job ts i _ Stopped Ei) as Hh2.
    simpl in *.
    destruct (processing_lock self) eqn:El; [|lia].
    destruct o as [delivered|].
    + unfold task_done. simpl.
      destruct (unfinished_tasks self) as [|n] eqn:Eu; [lia|].
      intros [= <- <-]. simpl. split; lia.
    + intros [= <- <-]. simpl. split; lia.
Qed.

Lemma reachable_invariant cfg_model cfg_valid_models sys :
  reachable cfg_model cfg_valid_models sys → invariant sys.
Proof.
  induction 1 as [|sys e sys' acts _ IH Hstep].
  - apply invariant_start.
  - by eapply invariant_step.
Qed.

Lemma reachable_run cfg_model cfg_valid_models sys es sys' acts :
  reachable cfg_model cfg_valid_models sys →
  run sys es = Some (sys', acts) →
  reachable cfg_model cfg_valid_models sys'.
Proof.
  revert sys acts. induction es as [|e es IH]; intros sys acts Hr; simpl.
  - by intros [= <- <-].
  - destruct (step sys e) as [[sys1 acts1]|] eqn:E1; [|done]. simpl.
    destruct (run sys1 es) as [[sys2 acts2]|] eqn:E2; [|done]. simpl.
    intros [= <- <-]. eapply IH; [|done]. by eapply reachable_step.
Qed.

(** A collaborator call is entered only by a task that found the lock free
    and took it in the same step. *)
Lemma step_call_takes_lock sys e sys' acts t b u m :
  step sys e = Some (sys', acts) →
  process_url_message t b u m ∈ acts →
  processing_lock (bot sys) = false ∧ processing_lock (bot sys') = true.
Proof.
  destruct sys as [self ts].
  destruct e as [update context_bot|update args now| |i|i o]; simpl.
  - unfold handle_message.
    destruct (message_text update) as [|c text];
      [intros [= <- <-] Hin; by apply elem_of_nil in Hin|].
    destruct (findall_url (c :: text)); intros [= <- <-] Hin;
      apply list_elem_of_singleton in Hin; discriminate.
  - unfold model_command. destruct args as [|new_model args];
      [|case_bool_decide]; intros [= <- <-] Hin;
      apply list_elem_of_singleton in Hin; discriminate.
  - intros [= <- <-] Hin. by apply elem_of_nil in Hin.
  - destruct (ts !! i) as [st|]; [|done]. simpl.
    destruct (process_queue_resume st self) as [[[self1 st1] acts1]|] eqn:E;
      [|done]. simpl. intros [= <- <-] Hin.
    destruct st1 as [|item|item m1|].
    + unfold process_queue_resume, get, enter_gate in E.
      destruct st as [|[[t0 b0] u0]| |]; try done.
      * destruct (task_queue self) as [|[[t0 b0] u0] q]; [done|]. simpl in E.
        destruct (processing_lock self); done.
      * destruct (processing_lock self); done.
    + unfold process_queue_resume, get, enter_gate in E.
      destruct st as [|[[t0 b0] u0]| |]; try done.
      * destruct (task_queue self) as [|[[t0 b0] u0] q]; [done|]. simpl in E.
        destruct (processing_lock self) eqn:El; [|done].
        injection E as <- <- <-. by apply elem_of_nil in Hin.
      * destruct (processing_lock self); done.
    + by apply process_queue_resume_call in E as (_ & _ & ? & ? & _).
    + unfold process_queue_resume, get, enter_gate in E.
      destruct st as [|[[t0 b0] u0]| |]; try done.
      * destruct (task_queue self) as [|[[t0 b0] u0] q]; [done|]. simpl in E.
        destruct (processing_lock self); done.
      * destruct (processing_lock self); done.
  - destruct (ts !! i) as [st|]; [|done]. simpl.
    destruct st as [|item|item m1|]; simpl; try done.
    destruct o as [delivered|]; [destruct (task_done _)|];
      intros [= <- <-] Hin; by apply elem_of_nil in Hin.
Qed.

(** C4: in every reachable state at most one collaborator call is in
    flight; a task whose call is in flight holds the processing lock; and a
    call is entered only in a step that finds the lock free and takes it. *)
Theorem at_most_one_in_flight cfg_model cfg_valid_models sys :
  reachable cfg_model cfg_valid_models sys →
  (in_flight sys ≤ 1)%nat
  ∧ (∀ i item m,
       tasks sys !! i = Some (Processing item m) →
       processing_lock (bot sys) = true)
  ∧ (∀ i j item m item' m',
       tasks sys !! i = Some (Processing item m) →
       tasks sys !! j = Some (Processing item' m') → i = j)
  ∧ (∀ e sys' acts t b u m,
       step sys e = Some (sys', acts) →
       process_url_message t b u m ∈ acts →
       processing_lock (bot sys) = false ∧ processing_lock (bot sys') = true).
Proof.
  intros [Hgate _]%reachable_invariant. split_and!.
  - rewrite Hgate. destruct (processing_lock (bot sys)); lia.
  - intros i item m Hi.
    pose proof (count_tasks_lookup is_processing _ _ _ Hi eq_refl) as Hone.
    unfold in_flight in Hgate. destruct (processing_lock (bot sys)); [done|lia].
  - intros i j item m item' m' Hi Hj.
    destruct (decide (i = j)) as [|Hne]; [done|]. exfalso.
    pose proof (count_tasks_insert is_processing _ _ _ AwaitingJob Hi) as Hc.
    assert (<[i := AwaitingJob]> (tasks sys) !! j = Some (Processing item' m'))
      as Hj' by (by rewrite list_lookup_insert_ne).
    pose proof (count_tasks_lookup is_processing _ _ _ Hj' eq_refl) as Hone.
    unfold in_flight in Hgate. simpl in Hc.
    destruct (processing_lock (bot sys)); lia.
  - intros e sys' acts t b u m. apply step_call_takes_lock.
Qed.

(** Two dispatcher tasks, two queued jobs: the second task waits at the
    lock while the call of the first is in flight. *)
Lemma at_most_one_in_flight_witness :
  ∃ sys,
    run (start None None)
      [Spawn; Spawn; Message link_42 ApplicationBot;
       Message links_7 ApplicationBot; Resume 0; Resume 1]
    = Some (sys,
            [reply_text link_42 processing_now_text None;
             reply_text links_7 (jobs_ahead_text 1) None;
             process_url_message (message_text link_42) ApplicationBot link_42
               (lit "medium.en")])
    ∧ tasks sys
      = [Processing (message_text link_42, ApplicationBot, link_42) (lit "medium.en");
         AwaitingGate (message_text links_7, ApplicationBot, links_7)]
    ∧ (in_flight sys ≤ 1)%nat
    ∧ processing_lock (bot sys) = true.
Proof.
  destruct (run (start None None)
      [Spawn; Spawn; Message link_42 ApplicationBot;
       Message links_7 ApplicationBot; Resume 0; Resume 1])
    as [[sys acts]|] eqn:Erun; [|vm_compute in Erun; discriminate].
  assert (reachable None None sys) as Hr
    by (eapply reachable_run; [apply reachable_start | exact Erun]).
  destruct (at_most_one_in_flight None None sys Hr) as (H1 & H2 & _).
  vm_compute in Erun. injection Erun as <- <-.
  eexists. split; [reflexivity|]. split; [reflexivity|].
  split; [exact H1|]. eapply (H2 0%nat). reflexivity.
Defined.

(** C2 as stated fails: with two jobs queued, the collaborator raises on the
    first.  The lock is released, but the exception leaves [process_queue]:
    the task has stopped, the first job was never marked done, and the
    second job stays on the queue with no step of that task left to take
    it. *)
Lemma raising_collaborator_stops_dispatcher :
  ∃ sys,
    run (start None None)
      [Spawn; Message link_42 ApplicationBot; Message links_7 ApplicationBot;
       Resume 0; Collaborator 0 Raised]
    = Some (sys,
            [reply_text link_42 processing_now_text None;
             reply_text links_7 (jobs_ahead_text 1) None;
             process_url_message (message_text link_42) ApplicationBot link_42
               (lit "medium.en")])
    ∧ tasks sys = [Stopped]
    ∧ processing_lock (bot sys) = false
    ∧ task_queue (bot sys) = [(message_text links_7, ApplicationBot, links_7)]
    ∧ unfinished_tasks (bot sys) = 2%nat
    ∧ step sys (Resume 0) = None
    ∧ (∀ o, step sys (Collaborator 0 o) = None).
Proof.
  eexists. split; [vm_compute; reflexivity|].
  split_and!; reflexivity.
Qed.

(** A stopped task takes no further step, whatever else happens. *)
Lemma stopped_stays sys e sys' acts i :
  tasks sys !! i = Some Stopped →
  step sys e = Some (sys', acts) →
  tasks sys' !! i = Some Stopped.
Proof.
  destruct sys as [self ts]. intros Hi.
  destruct e as [update context_bot|update args now| |j|j o]; simpl in *.
  - destruct (handle_message update context_bot self). by intros [= <- <-].
  - destruct (model_command update args now self). by intros [= <- <-].
  - intros [= <- <-]. simpl. by apply lookup_app_l_Some.
  - destruct (ts !! j) as [st|] eqn:Ej; [|done]. simpl.
    destruct (process_queue_resume st self) as [[[self1 st1] acts1]|] eqn:E;
      [|done]. simpl. intros [= <- <-]. simpl.
    destruct (decide (j = i)) as [->|Hne]; [|by rewrite list_lookup_insert_ne].
    rewrite Hi in Ej. by injection Ej as <-.
  - destruct (ts !! j) as [st|] eqn:Ej; [|done]. simpl.
    destruct (process_queue_return st o self) as [[[self1 st1] acts1]|] eqn:E;
      [|done]. simpl. intros [= <- <-]. simpl.
    destruct (decide (j = i)) as [->|Hne]; [|by rewrite list_lookup_insert_ne].
    rewrite Hi in Ej. by injection Ej as <-.
Qed.

(** C2, amended: when the collaborator call of a job returns, whether it
    delivered or reported a failure of its own, the task releases the lock,
    marks the job done and is back at the queue, where it takes the next
    queued job into the collaborator.  When the call raises, the lock is
    released as well, but the exception leaves the loop: the job is not
    marked done and the task takes no further job. *)
Theorem dispatcher_after_collaborator cfg_model cfg_valid_models sys i item m :
  reachable cfg_model cfg_valid_models sys →
  tasks sys !! i = Some (Processing item m) →
  (∀ delivered, ∃ self',
     step sys (Collaborator i (Returned delivered))
     = Some (mkSystem self' (<[i := AwaitingJob]> (tasks sys)), [])
     ∧ processing_lock self' = false
     ∧ S (unfinished_tasks self') = unfinished_tasks (bot sys)
     ∧ task_queue self' = task_queue (bot sys)
     ∧ (∀ text b u q,
          task_queue (bot sys) = (text, b, u) :: q →
          ∃ self'',
            step (mkSystem self' (<[i := AwaitingJob]> (tasks sys))) (Resume i)
            = Some (mkSystem self''
                      (<[i := Processing (text, b, u)
                                 (get_whisper_model self' (effective_user_id u))]>
                         (tasks sys)),
                    [process_url_message text b u
                       (get_whisper_model self' (effective_user_id u))])
            ∧ task_queue self'' = q))
  ∧ (∃ self',
       step sys (Collaborator i Raised)
       = Some (mkSystem self' (<[i := Stopped]> (tasks sys)), [])
       ∧ processing_lock self' = false
       ∧ unfinished_tasks self' = unfinished_tasks (bot sys)
       ∧ task_queue self' = task_queue (bot sys)
       ∧ step (mkSystem self' (<[i := Stopped]> (tasks sys))) (Resume i) = None).
Proof.
  intros [_ Hunf]%reachable_invariant Hi.
  pose proof (count_tasks_lookup holds_job _ _ _ Hi eq_refl) as Hheld.
  pose proof (lookup_lt_Some _ _ _ Hi) as Hlt.
  destruct sys as [self ts]. simpl in *. split.
  - intros delivered. rewrite Hi. simpl. unfold task_done. simpl.
    destruct (unfinished_tasks self) as [|n] eqn:Eu; [lia|].
    eexists. split; [reflexivity|]. simpl. split_and!; try done.
    intros text b u q Hq. rewrite list_lookup_insert_eq by done. simpl.
    unfold get. simpl. rewrite Hq. simpl.
    eexists. split; [by rewrite list_insert_insert_eq | reflexivity].
  - rewrite Hi. simpl. eexists. split; [reflexivity|]. simpl.
    split_and!; try done. by rewrite list_lookup_insert_eq.
Qed.

(** After a reported failure on the first of two jobs the same task goes on
    with the second one. *)
Lemma dispatcher_after_collaborator_witness :
  ∃ sys,
    run (start None None)
      [Spawn; Message link_42 ApplicationBot; Message links_7 ApplicationBot;
       Resume 0; Collaborator 0 (Returned false); Resume 0]
    = Some (sys,
            [reply_text link_42 processing_now_text None;
             reply_text links_7 (jobs_ahead_text 1) None;
             process_url_message (message_text link_42) ApplicationBot link_42
               (lit "medium.en");
             process_url_message (message_text links_7) ApplicationBot links_7
               (lit "medium.en")])
    ∧ task_queue (bot sys) = []
    ∧ unfinished_tasks (bot sys) = 1%nat.
Proof.
  destruct (run (start None None)
      [Spawn; Message link_42 ApplicationBot; Message links_7 ApplicationBot;
       Resume 0])
    as [[sys acts]|] eqn:Erun; [|vm_compute in Erun; discriminate].
  assert (reachable None None sys) as Hr
    by (eapply reachable_run; [apply reachable_start | exact Erun]).
  assert (tasks sys !! 0%nat
          = Some (Processing (message_text link_42, ApplicationBot, link_42)
                    (lit "medium.en"))) as Hi
    by (vm_compute in Erun; injection Erun as <- <-; reflexivity).
  destruct (dispatcher_after_collaborator None None sys 0%nat _ _ Hr Hi)
    as [Hret _].
  destruct (Hret false) as (self' & Hstep & Hlock & Hunf & Hq & Hnext).
  vm_compute in Erun. injection Erun as <- <-.
  eexists. split; [vm_compute; reflexivity|]. split; reflexivity.
Defined.

(** What a task passes as the model is the user's model in the state in
    which the task takes the lock. *)
Lemma model_resolved_inside_gate sys i sys' acts t b u m :
  step sys (Resume i) = Some (sys', acts) →
  process_url_message t b u m ∈ acts →
  m = get_whisper_model (bot sys) (effective_user_id u).
Proof.
  destruct sys as [self ts]. simpl.
  destruct (ts !! i) as [st|]; [|done]. simpl.
  destruct (process_queue_resume st self) as [[[self1 st1] acts1]|] eqn:E;
    [|done]. simpl. intros [= <- <-] Hin.
  destruct st1 as [|item|item m1|].
  - unfold process_queue_resume, get, enter_gate in E.
    destruct st as [|[[t0 b0] u0]| |]; try done.
    + destruct (task_queue self) as [|[[t0 b0] u0] q]; [done|]. simpl in E.
      destruct (processing_lock self); done.
    + destruct (processing_lock self); done.
  - unfold process_queue_resume, get, enter_gate in E.
    destruct st as [|[[t0 b0] u0]| |]; try done.
    + destruct (task_queue self) as [|[[t0 b0] u0] q]; [done|]. simpl in E.
      destruct (processing_lock self) eqn:El; [|done].
      injection E as <- <- <-. by apply elem_of_nil in Hin.
    + destruct (processing_lock self); done.
  - apply process_queue_resume_call in E as (-> & -> & _).
    apply list_elem_of_singleton in Hin. by injection Hin as -> -> -> ->.
  - unfold process_queue_resume, get, enter_gate in E.
    destruct st as [|[[t0 b0] u0]| |]; try done.
    + destruct (task_queue self) as [|[[t0 b0] u0] q]; [done|]. simpl in E.
      destruct (processing_lock self); done.
    + destruct (processing_lock self); done.
Qed.



(** The same scenario run to its end. *)
Example late_binding_small_large :
  snd <$> run (start None None)
      [Spawn; ModelCommand model_42 [lit "small"] 100;
       Message link_42 ApplicationBot;
       ModelCommand model_42 [lit "large"] 200; Resume 0]
  = Some [reply_text model_42 (model_set_text (lit "small")) HTML;
          reply_text link_42 processing_now_text None;
          reply_text model_42 (model_set_text (lit "large")) HTML;
          process_url_message (message_text link_42) ApplicationBot link_42
            (lit "large")].
Proof. vm_compute. reflexivity. Qed.

(** * Further properties of the code *)

(** ** Strings: [split], [join] and the scan *)

Lemma split_go_skip sep pre rest cur :
  split_go sep (length pre) cur (pre ++ rest) = split_go sep 0 cur rest.
Proof.
  induction pre as [|c pre IH]; simpl; [done|]. exact IH.
Qed.

Lemma split_go_cons sep skip cur s : ∃ p ps, split_go sep skip cur s = p :: ps.
Proof.
  revert skip cur. induction s as [|c s IH]; intros skip cur; simpl; [eauto|].
  destruct skip as [|k]; [|apply IH].
  destruct (strip_prefix sep (c :: s)); [eauto | apply IH].
Qed.

Lemma join_cons sep p q ps : join sep (p :: q :: ps) = p ++ sep ++ join sep (q :: ps).
Proof. done. Qed.

Lemma join_split_go sep n s cur :
  sep ≠ [] → (length s ≤ n)%nat →
  join sep (split_go sep 0 cur s) = cur ++ s.
Proof.
  intros Hsep. revert s cur. induction n as [|n IH]; intros s cur Hlen.
  - destruct s; [simpl; by rewrite app_nil_r | simpl in Hlen; lia].
  - destruct s as [|c s]; [simpl; by rewrite app_nil_r|].
    cbn [split_go].
    destruct (strip_prefix sep (c :: s)) as [rest|] eqn:E.
    + apply strip_prefix_Some in E.
      destruct sep as [|a sep']; [done|]. simpl in E. injection E as -> ->.
      replace (length (a :: sep') - 1)%nat with (length sep')
        by (simpl; lia).
      rewrite split_go_skip.
      destruct (split_go_cons (a :: sep') 0 [] rest) as (p & ps & Hp).
      pose proof (IH rest []) as IHr. rewrite Hp in *. rewrite join_cons.
      rewrite IHr; [done|]. simpl in Hlen. rewrite length_app in Hlen. lia.
    + rewrite IH by (simpl in Hlen; lia). by rewrite <- app_assoc.
Qed.

(** X1: joining the pieces of a split with the separator gives the text
    back. *)
Theorem join_split sep s : sep ≠ [] → join sep (split sep s) = s.
Proof. intros Hsep. by apply (join_split_go sep (length s)). Qed.

Lemma join_split_witness :
  join (lit ", ") (split (lit ", ") (lit "tiny.en, base,large-v3, ")) =
  lit "tiny.en, base,large-v3, ".
Proof. apply join_split. discriminate. Defined.

(** The pieces on a text with an empty piece at the end and a comma without
    its space. *)
Example split_pieces :
  split (lit ", ") (lit "tiny.en, base,large-v3, ")
  = [lit "tiny.en"; lit "base,large-v3"; []].
Proof. vm_compute. reflexivity. Qed.

(** X2: the list of models that the replies show is the configured
    [ValidModels] text itself, or the fallback text when the entry is
    missing. *)
Theorem models_list_is_configured_text cfg_model cfg_valid_models :
  join (lit ", ") (valid_models (init cfg_model cfg_valid_models))
  = config_get cfg_valid_models (lit "tiny, base, small, medium, large").
Proof.
  change (valid_models (init cfg_model cfg_valid_models))
    with (split (lit ", ")
            (config_get cfg_valid_models (lit "tiny, base, small, medium, large"))).
  by apply (join_split_go (lit ", ")
              (length (config_get cfg_valid_models
                         (lit "tiny, base, small, medium, large")))).
Qed.

Lemma span_S_spec s m r :
  span_S s = (m, r) →
  Forall (λ c, Py_UNICODE_ISSPACE c = false) m
  ∧ match r with [] => True | c :: _ => Py_UNICODE_ISSPACE c = true end.
Proof.
  revert m r. induction s as [|c s IH]; intros m r; simpl.
  - by intros [= <- <-].
  - destruct (Py_UNICODE_ISSPACE c) eqn:Ec; [by intros [= <- <-]|].
    destruct (span_S s) as [m' r'] eqn:E. intros [= <- <-].
    destruct (IH m' r' eq_refl) as [Hm Hr]. split; [by constructor | done].
Qed.

Lemma match_tail_shape t m rest :
  match_tail t = Some (m, rest) →
  (∃ body, m = lit "://" ++ body ∧ body ≠ []
           ∧ Forall (λ c, Py_UNICODE_ISSPACE c = false) body)
  ∧ match rest with [] => True | c :: _ => Py_UNICODE_ISSPACE c = true end.
Proof.
  unfold match_tail.
  destruct (strip_prefix (lit "://") t) as [r|]; [|done].
  destruct (span_S r) as [[|c body] rest0] eqn:Es; [done|].
  intros [= <- <-]. apply span_S_spec in Es as [Hm Hr].
  split; [|done]. by exists (c :: body).
Qed.

Lemma match_here_shape s m rest :
  match_here s = Some (m, rest) →
  (∃ body, (m = lit "http://" ++ body ∨ m = lit "https://" ++ body)
           ∧ body ≠ [] ∧ Forall (λ c, Py_UNICODE_ISSPACE c = false) body)
  ∧ match rest with [] => True | c :: _ => Py_UNICODE_ISSPACE c = true end.
Proof.
  unfold match_here.
  destruct (strip_prefix (lit "http") s) as [r|]; [|done].
  assert (∀ t m1 rest1, match_tail t = Some (m1, rest1) →
            (Some (lit "http" ++ m1, rest1) = Some (m, rest)
             ∨ Some (lit "https" ++ m1, rest1) = Some (m, rest)) →
            (∃ body, (m = lit "http://" ++ body ∨ m = lit "https://" ++ body)
               ∧ body ≠ [] ∧ Forall (λ c, Py_UNICODE_ISSPACE c = false) body)
            ∧ match rest with [] => True | c :: _ => Py_UNICODE_ISSPACE c = true end)
    as Hfin.
  { intros t m1 rest1 [(body & -> & Hne & Hb) Hr]%match_tail_shape Heq.
    destruct Heq as [[= <- <-]|[= <- <-]]; (split; [|done]);
      exists body; split_and!; auto. }
  destruct r as [|c r].
  - destruct (match_tail []) as [[m1 rest1]|] eqn:E1; [|done].
    intros Hm. eapply Hfin; eauto.
  - destruct (c =? 115)%N.
    + destruct (match_tail r) as [[m1 rest1]|] eqn:E1.
      * intros Hm. eapply Hfin; eauto.
      * destruct (match_tail (c :: r)) as [[m2 rest2]|] eqn:E2; [|done].
        intros Hm. eapply Hfin; eauto.
    + destruct (match_tail (c :: r)) as [[m1 rest1]|] eqn:E1; [|done].
      intros Hm. eapply Hfin; eauto.
Qed.

Lemma findall_go_shape fuel s u :
  u ∈ findall_go fuel s →
  ∃ pre post body,
    s = pre ++ u ++ post
    ∧ (u = lit "http://" ++ body ∨ u = lit "https://" ++ body)
    ∧ body ≠ []
    ∧ Forall (λ c, Py_UNICODE_ISSPACE c = false) body
    ∧ match post with [] => True | c :: _ => Py_UNICODE_ISSPACE c = true end.
Proof.
  revert s. induction fuel as [|fuel IH]; intros s; simpl.
  { intros Hin. by apply elem_of_nil in Hin. }
  destruct s as [|c s]; [intros Hin; by apply elem_of_nil in Hin|].
  destruct (match_here (c :: s)) as [[m rest]|] eqn:E.
  - intros [->|Hin]%elem_of_cons.
    + destruct (match_here_rest _ _ _ E) as [Hs _].
      destruct (match_here_shape _ _ _ E) as [(body & Hm & Hne & Hb) Hr].
      exists [], rest, body. by split_and!.
    + destruct (match_here_rest _ _ _ E) as [Hs _].
      apply IH in Hin as (pre & post & body & -> & ?).
      exists (m ++ pre), post, body. split; [|done].
      rewrite Hs. by rewrite <- app_assoc.
  - intros (pre & post & body & -> & ?)%IH.
    by exists (c :: pre), post, body.
Qed.

(** X3: every string that [findall] returns is a piece of the text that
    starts with [http://] or [https://], goes on with at least one
    character, holds no whitespace after the scheme, and runs up to the end
    of the text or to the next whitespace. *)
Theorem findall_url_shape text u :
  u ∈ findall_url text →
  ∃ pre post body,
    text = pre ++ u ++ post
    ∧ (u = lit "http://" ++ body ∨ u = lit "https://" ++ body)
    ∧ body ≠ []
    ∧ Forall (λ c, Py_UNICODE_ISSPACE c = false) body
    ∧ match post with [] => True | c :: _ => Py_UNICODE_ISSPACE c = true end.
Proof. apply findall_go_shape. Qed.

Lemma findall_url_shape_witness :
  ∃ pre post body,
    lit "see http://a.b/c, and more" = pre ++ lit "http://a.b/c," ++ post
    ∧ (lit "http://a.b/c," = lit "http://" ++ body
       ∨ lit "http://a.b/c," = lit "https://" ++ body)
    ∧ body ≠ []
    ∧ Forall (λ c, Py_UNICODE_ISSPACE c = false) body
    ∧ match post with [] => True | c :: _ => Py_UNICODE_ISSPACE c = true end.
Proof.
  apply (findall_url_shape (lit "see http://a.b/c, and more")).
  vm_compute. constructor.
Defined.

(** ** What a step can change *)

#[local] Arguments lit : simpl never.

Lemma after_reachable es : reachable None None (after es).
Proof.
  unfold after.
  destruct (run (start None None) es) as [[sys acts]|] eqn:E.
  - eapply reachable_run; [apply reachable_start | exact E].
  - apply reachable_start.
Qed.

Lemma process_queue_resume_frame st self self' st' acts :
  process_queue_resume st self = Some (self', st', acts) →
  model self' = model self ∧ valid_models self' = valid_models self
  ∧ model_change_cooldown self' = model_change_cooldown self
  ∧ handler_user_models self' = handler_user_models self
  ∧ model_change_limits self' = model_change_limits self.
Proof.
  unfold process_queue_resume, get, enter_gate.
  destruct st as [|[[t b] u]|?|]; try done.
  - destruct (task_queue self) as [|[[t b] u] q]; [done|]. simpl.
    destruct (processing_lock self); by intros [= <- <- <-].
  - destruct (processing_lock self) eqn:El; [done|].
    by intros [= <- <- <-].
Qed.

Lemma process_queue_return_frame st o self self' st' acts :
  process_queue_return st o self = Some (self', st', acts) →
  model self' = model self ∧ valid_models self' = valid_models self
  ∧ model_change_cooldown self' = model_change_cooldown self
  ∧ handler_user_models self' = handler_user_models self
  ∧ model_change_limits self' = model_change_limits self.
Proof.
  unfold process_queue_return, task_done.
  destruct st as [| |item m|]; try done. simpl.
  destruct o as [delivered|]; [destruct (unfinished_tasks self)|];
    by intros [= <- <- <-].
Qed.

(** The configuration is carried along by every step, and the two per-user
    tables are written by an accepted model command only. *)
Lemma step_frame sys e sys' acts :
  step sys e = Some (sys', acts) →
  (model (bot sys') = model (bot sys)
   ∧ valid_models (bot sys') = valid_models (bot sys)
   ∧ model_change_cooldown (bot sys') = model_change_cooldown (bot sys))
  ∧ ((handler_user_models (bot sys') = handler_user_models (bot sys)
      ∧ model_change_limits (bot sys') = model_change_limits (bot sys))
     ∨ (∃ update new_model args now,
          e = ModelCommand update (new_model :: args) now
          ∧ new_model ∈ valid_models (bot sys)
          ∧ handler_user_models (bot sys')
            = <[effective_user_id update := new_model]>
                (handler_user_models (bot sys))
          ∧ model_change_limits (bot sys')
            = <[effective_user_id update := now]>
                (model_change_limits (bot sys)))).
Proof.
  destruct sys as [self ts].
  destruct e as [update context_bot|update args now| |i|i o]; simpl.
  - unfold handle_message.
    destruct (message_text update) as [|c text]; [intros [= <- <-]; auto|].
    destruct (findall_url (c :: text)); intros [= <- <-]; simpl; auto.
  - unfold model_command. destruct args as [|new_model args];
      [intros [= <- <-]; auto|].
    case_bool_decide as Hin; intros [= <- <-]; simpl; [|auto].
    split; [done|]. right. by exists update, new_model, args, now.
  - intros [= <- <-]. auto.
  - destruct (ts !! i) as [st|]; [|done]. simpl.
    destruct (process_queue_resume st self) as [[[self1 st1] acts1]|] eqn:E;
      [|done]. simpl. intros [= <- <-]. simpl.
    apply process_queue_resume_frame in E as (? & ? & ? & ? & ?). auto.
  - destruct (ts !! i) as [st|]; [|done]. simpl.
    destruct (process_queue_return st o self) as [[[self1 st1] acts1]|] eqn:E;
      [|done]. simpl. intros [= <- <-]. simpl.
    apply process_queue_return_frame in E as (? & ? & ? & ? & ?). auto.
Qed.

Lemma reachable_config cfg_model cfg_valid_models sys :
  reachable cfg_model cfg_valid_models sys →
  model (bot sys) = model (init cfg_model cfg_valid_models)
  ∧ valid_models (bot sys) = valid_models (init cfg_model cfg_valid_models)
  ∧ model_change_cooldown (bot sys) = 20.
Proof.
  induction 1 as [|sys e sys' acts _ IH Hstep]; [done|].
  apply step_frame in Hstep as [(-> & -> & ->) _]. exact IH.
Qed.

Lemma reachable_store cfg_model cfg_valid_models sys :
  reachable cfg_model cfg_valid_models sys →
  (∀ user_id m,
     handler_user_models (bot sys) !! user_id = Some m →
     m ∈ valid_models (bot sys))
  ∧ (∀ user_id,
       is_Some (handler_user_models (bot sys) !! user_id)
       ↔ is_Some (model_change_limits (bot sys) !! user_id)).
Proof.
  induction 1 as [|sys e sys' acts _ [IHv IHd] Hstep].
  - split; intros user_id; simpl; [by rewrite lookup_empty|].
    rewrite !lookup_empty. done.
  - apply step_frame in Hstep as [(_ & Hvm & _) Hstore]. rewrite Hvm.
    destruct Hstore as [[-> ->]|(update & new_model & args & now & _ & Hin & -> & ->)];
      [done|].
    split; intros user_id.
    + intros m. destruct (decide (effective_user_id update = user_id)) as [->|Hne].
      * rewrite lookup_insert_eq. by intros [= <-].
      * rewrite lookup_insert_ne by done. apply IHv.
    + destruct (decide (effective_user_id update = user_id)) as [->|Hne].
      * rewrite !lookup_insert_eq. split; eauto.
      * rewrite !lookup_insert_ne by done. apply IHd.
Qed.

(** ** The model command and the per-user tables *)

(** X4: an accepted model change is what the user reads back: the user's
    model is the new one, the recorded time is the time of the command, a
    following query by the user reports the new model, and nothing else
    moves: other users keep their model and their recorded time, and the
    queue, its counter and the lock are as before. *)
Theorem model_change_round_trip update new_model args now later self :
  new_model ∈ valid_models self →
  get_whisper_model (model_command update (new_model :: args) now self).1
    (effective_user_id update) = new_model
  ∧ model_change_limits (model_command update (new_model :: args) now self).1
      !! effective_user_id update = Some now
  ∧ (model_command update [] later
       (model_command update (new_model :: args) now self).1).2
    = [reply_text update
         (current_model_text new_model (join (lit ", ") (valid_models self)))
         HTML]
  ∧ (∀ other, other ≠ effective_user_id update →
       get_whisper_model (model_command update (new_model :: args) now self).1 other
       = get_whisper_model self other
       ∧ model_change_limits (model_command update (new_model :: args) now self).1
           !! other
         = model_change_limits self !! other)
  ∧ task_queue (model_command update (new_model :: args) now self).1
    = task_queue self
  ∧ unfinished_tasks (model_command update (new_model :: args) now self).1
    = unfinished_tasks self
  ∧ processing_lock (model_command update (new_model :: args) now self).1
    = processing_lock self.
Proof.
  intros Hin. rewrite model_command_valid by done.
  unfold get_whisper_model. simpl. rewrite !lookup_insert_eq.
  split_and!; try done.
  - unfold get_whisper_model. simpl. by rewrite lookup_insert_eq.
  - intros other Hne. by rewrite !lookup_insert_ne.
Qed.

Lemma model_change_round_trip_witness :
  get_whisper_model (model_command model_42 [lit "base"] 7 fallback_bot).1 42
  = lit "base"
  ∧ model_change_limits (model_command model_42 [lit "base"] 7 fallback_bot).1
      !! 42 = Some 7
  ∧ get_whisper_model (model_command model_42 [lit "base"] 7 fallback_bot).1 43
    = lit "medium.en".
Proof.
  assert (lit "base" ∈ valid_models fallback_bot) as Hin
    by (apply (bool_decide_unpack _); vm_compute; exact I).
  destruct (model_change_round_trip model_42 (lit "base") [] 7 8 fallback_bot Hin)
    as (H1 & H2 & _ & H4 & _).
  split_and!; [exact H1 | exact H2 |].
  destruct (H4 43) as [H _]; [discriminate|]. rewrite H. reflexivity.
Defined.

(** X5: neither the time of a model command nor the recorded times of
    earlier changes have any bearing on its outcome: the reply and the
    resulting table of user models are the same whatever they are. *)
Theorem model_command_ignores_times update args now now' limits self :
  (model_command update args now (set_model_change_limits limits self)).2
  = (model_command update args now' self).2
  ∧ handler_user_models
      (model_command update args now (set_model_change_limits limits self)).1
    = handler_user_models (model_command update args now' self).1.
Proof.
  unfold model_command. destruct args as [|new_model args]; [done|]. simpl.
  case_bool_decide; done.
Qed.

(** X6: the configuration never changes while the process runs: the default
    model, the valid models and the cooldown are those of [__init__] in
    every reachable state. *)
Theorem configuration_is_fixed cfg_model cfg_valid_models sys :
  reachable cfg_model cfg_valid_models sys →
  model (bot sys) = config_get cfg_model (lit "medium.en")
  ∧ valid_models (bot sys)
    = split (lit ", ")
        (config_get cfg_valid_models (lit "tiny, base, small, medium, large"))
  ∧ model_change_cooldown (bot sys) = 20.
Proof. apply reachable_config. Qed.

Lemma configuration_is_fixed_witness :
  model (bot (after busy_schedule)) = lit "medium.en"
  ∧ valid_models (bot (after busy_schedule))
    = [lit "tiny"; lit "base"; lit "small"; lit "medium"; lit "large"]
  ∧ model_change_cooldown (bot (after busy_schedule)) = 20.
Proof.
  exact (configuration_is_fixed None None (after busy_schedule)
           (after_reachable busy_schedule)).
Defined.

(** X7: in every reachable state the model stored for a user is one of the
    valid models. *)
Theorem stored_models_are_valid cfg_model cfg_valid_models sys user_id m :
  reachable cfg_model cfg_valid_models sys →
  handler_user_models (bot sys) !! user_id = Some m →
  m ∈ valid_models (bot sys).
Proof. intros Hr. by apply (reachable_store _ _ _ Hr). Qed.

Lemma stored_models_are_valid_witness :
  lit "small" ∈ valid_models (bot (after busy_schedule)).
Proof.
  apply (stored_models_are_valid None None (after busy_schedule) 42 (lit "small")
           (after_reachable busy_schedule)).
  vm_compute. reflexivity.
Defined.

(** X8: in every reachable state a time of last change is recorded for
    exactly the users that have a stored model. *)
Theorem limits_follow_models cfg_model cfg_valid_models sys user_id :
  reachable cfg_model cfg_valid_models sys →
  is_Some (handler_user_models (bot sys) !! user_id)
  ↔ is_Some (model_change_limits (bot sys) !! user_id).
Proof. intros Hr. by apply (reachable_store _ _ _ Hr). Qed.

Lemma limits_follow_models_witness :
  is_Some (handler_user_models (bot (after busy_schedule)) !! 42)
  ↔ is_Some (model_change_limits (bot (after busy_schedule)) !! 42).
Proof.
  exact (limits_follow_models None None (after busy_schedule) 42
           (after_reachable busy_schedule)).
Defined.

Lemma run_frame_user user_id sys es sys' acts :
  run sys es = Some (sys', acts) →
  existsb (is_model_command_of user_id) es = false →
  handler_user_models (bot sys') !! user_id
  = handler_user_models (bot sys) !! user_id
  ∧ model (bot sys') = model (bot sys).
Proof.
  revert sys acts. induction es as [|e es IH]; intros sys acts; simpl.
  - by intros [= <- <-].
  - destruct (step sys e) as [[sys1 acts1]|] eqn:E1; [|done]. simpl.
    destruct (run sys1 es) as [[sys2 acts2]|] eqn:E2; [|done]. simpl.
    intros [= <- <-] [He Hes]%orb_false_elim.
    destruct (IH _ _ E2 Hes) as [-> ->].
    apply step_frame in E1 as [(-> & _) Hstore]. split; [|done].
    destruct Hstore as [[-> _]|(update & m & args & now & -> & _ & -> & _)];
      [done|].
    simpl in He. apply bool_decide_eq_false in He.
    by rewrite lookup_insert_ne.
Qed.

(** X9: a user who has sent no model command so far has the configured
    default model, whatever the other users and the dispatcher did. *)
Theorem default_model_until_changed cfg_model cfg_valid_models es sys acts user_id :
  run (start cfg_model cfg_valid_models) es = Some (sys, acts) →
  existsb (is_model_command_of user_id) es = false →
  get_whisper_model (bot sys) user_id = config_get cfg_model (lit "medium.en").
Proof.
  intros Hrun Hes. unfold get_whisper_model.
  destruct (run_frame_user user_id _ _ _ _ Hrun Hes) as [-> ->]. simpl.
  by rewrite lookup_empty.
Qed.

Lemma default_model_until_changed_witness :
  get_whisper_model (bot (after busy_schedule)) 7 = lit "medium.en".
Proof.
  destruct (run (start None None) busy_schedule) as [[sys acts]|] eqn:E;
    [|vm_compute in E; discriminate].
  unfold after. rewrite E.
  exact (default_model_until_changed None None busy_schedule sys acts 7 E eq_refl).
Defined.

(** X10: when the default model is not one of the valid models, as with the
    fallback configuration, a user who has changed the model never has the
    default again. *)
Theorem default_model_cannot_be_restored cfg_model cfg_valid_models sys user_id :
  reachable cfg_model cfg_valid_models sys →
  config_get cfg_model (lit "medium.en")
    ∉ split (lit ", ")
        (config_get cfg_valid_models (lit "tiny, base, small, medium, large")) →
  is_Some (handler_user_models (bot sys) !! user_id) →
  get_whisper_model (bot sys) user_id ≠ config_get cfg_model (lit "medium.en").
Proof.
  intros Hr Hnot [m Hm]. unfold get_whisper_model. rewrite Hm. simpl.
  intros ->. apply Hnot.
  destruct (reachable_config _ _ _ Hr) as (_ & Hv & _).
  destruct (reachable_store _ _ _ Hr) as [Hvalid _].
  apply Hvalid in Hm. by rewrite Hv in Hm.
Qed.

Lemma default_model_cannot_be_restored_witness :
  get_whisper_model (bot (after busy_schedule)) 42 ≠ lit "medium.en".
Proof.
  apply (default_model_cannot_be_restored None None (after busy_schedule) 42
           (after_reachable busy_schedule)).
  - apply (bool_decide_unpack _). vm_compute. exact I.
  - vm_compute. eauto.
Defined.

(** With the fallback configuration the very commands that the usage text
    recommends are turned down. *)
Example recommended_commands_rejected :
  (model_command model_42 [lit "medium.en"] 0 fallback_bot).2
  = [reply_text model_42
       (invalid_model_text (lit "tiny, base, small, medium, large")) HTML]
  ∧ (model_command model_42 [lit "large-v3"] 0 fallback_bot).2
    = [reply_text model_42
         (invalid_model_text (lit "tiny, base, small, medium, large")) HTML].
Proof. split; vm_compute; reflexivity. Qed.

(** ** The help command *)

(** X11: the help text is the same in every reachable state and for every
    user: it names the configured default model and the configured list of
    models, whatever model the asking user has chosen. *)
Theorem help_text_is_fixed cfg_model cfg_valid_models sys update :
  reachable cfg_model cfg_valid_models sys →
  help_command update (bot sys)
  = (bot sys,
     [reply_text update
        (help_text (lit "0.12") (config_get cfg_model (lit "medium.en"))
           (config_get cfg_valid_models
              (lit "tiny, base, small, medium, large")))
        HTML]).
Proof.
  intros (Hm & Hv & _)%reachable_config. unfold help_command.
  rewrite Hm, Hv.
  change (valid_models (init cfg_model cfg_valid_models))
    with (split (lit ", ")
            (config_get cfg_valid_models (lit "tiny, base, small, medium, large"))).
  unfold split.
  rewrite (join_split_go (lit ", ")
             (length (config_get cfg_valid_models
                        (lit "tiny, base, small, medium, large")))) by done.
  done.
Qed.

Lemma help_text_is_fixed_witness :
  (help_command model_42 (bot (after busy_schedule))).2
  = [reply_text model_42
       (help_text (lit "0.12") (lit "medium.en")
          (lit "tiny, base, small, medium, large")) HTML]
  ∧ get_whisper_model (bot (after busy_schedule)) 42 = lit "small".
Proof.
  rewrite (help_text_is_fixed None None (after busy_schedule) model_42
             (after_reachable busy_schedule)).
  split; [reflexivity | vm_compute; reflexivity].
Defined.

(** ** The lock and the counter of the queue *)

Lemma count_tasks_pos p l :
  (1 ≤ count_tasks p l)%nat → ∃ i st, l !! i = Some st ∧ p st = true.
Proof.
  induction l as [|x l IH]; simpl; [lia|].
  destruct (p x) eqn:Ep.
  - intros _. by exists 0%nat, x.
  - intros (i & st & Hi & Hp)%IH. by exists (S i), st.
Qed.

(** X12: the lock is never left behind: in every reachable state in which
    it is held, some dispatcher task is inside its collaborator call; after
    a call that raised, too, the lock is free again. *)
Theorem lock_held_by_a_call cfg_model cfg_valid_models sys :
  reachable cfg_model cfg_valid_models sys →
  processing_lock (bot sys) = true →
  ∃ i item m, tasks sys !! i = Some (Processing item m).
Proof.
  intros [Hgate _]%reachable_invariant Hl. unfold in_flight in Hgate.
  rewrite Hl in Hgate.
  destruct (count_tasks_pos is_processing (tasks sys)) as (i & st & Hi & Hp);
    [lia|].
  destruct st; try done. eauto.
Qed.

Lemma lock_held_by_a_call_witness :
  ∃ i item m, tasks (after busy_schedule) !! i = Some (Processing item m).
Proof.
  apply (lock_held_by_a_call None None (after busy_schedule)
           (after_reachable busy_schedule)).
  vm_compute. reflexivity.
Defined.

(** X13: in every reachable state the queue's count of unfinished items is
    the number of queued items plus the number of tasks that have taken an
    item and not marked it done (waiting at the lock, inside the call, or
    stopped by an exception); so [task_done()] is never called once too
    often. *)
Theorem unfinished_tasks_accounted cfg_model cfg_valid_models sys :
  reachable cfg_model cfg_valid_models sys →
  unfinished_tasks (bot sys)
  = (qsize (bot sys) + count_tasks holds_job (tasks sys))%nat
  ∧ (∀ i item m,
       tasks sys !! i = Some (Processing item m) →
       is_Some (task_done (set_processing_lock false (bot sys)))).
Proof.
  intros [_ Hunf]%reachable_invariant. split; [done|].
  intros i item m Hi.
  pose proof (count_tasks_lookup holds_job _ _ _ Hi eq_refl) as Hheld.
  unfold task_done. simpl.
  destruct (unfinished_tasks (bot sys)); [lia | eauto].
Qed.

Lemma unfinished_tasks_accounted_witness :
  unfinished_tasks (bot (after busy_schedule)) = (1 + 1)%nat.
Proof.
  destruct (unfinished_tasks_accounted None None (after busy_schedule)
              (after_reachable busy_schedule)) as [H _].
  rewrite H. vm_compute. reflexivity.
Defined.

(** X14: with several dispatcher tasks, too, the model handed to the
    collaborator is the one the user has when the task takes the lock; for
    a task that had to wait at the lock that is later than the moment it
    took the job from the queue. *)
Theorem model_resolved_when_lock_taken sys i sys' acts t b u m :
  step sys (Resume i) = Some (sys', acts) →
  process_url_message t b u m ∈ acts →
  m = get_whisper_model (bot sys) (effective_user_id u).
Proof. apply model_resolved_inside_gate. Qed.

Lemma model_resolved_when_lock_taken_witness :
  ∃ sys' acts,
    step (after handover_schedule) (Resume 1) = Some (sys', acts)
    ∧ process_url_message (message_text link_42) ApplicationBot link_42
        (lit "large") ∈ acts
    ∧ tasks (after handover_schedule)
      = [AwaitingJob;
         AwaitingGate (message_text link_42, ApplicationBot, link_42)]
    ∧ lit "large"
      = get_whisper_model (bot (after handover_schedule))
          (effective_user_id link_42).
Proof.
  destruct (step (after handover_schedule) (Resume 1)) as [[sys' acts]|] eqn:E;
    [|vm_compute in E; discriminate].
  assert (process_url_message (message_text link_42) ApplicationBot link_42
            (lit "large") ∈ acts) as Hin
    by (vm_compute in E; injection E as <- <-; constructor).
  exists sys', acts. split_and!; [done | done | vm_compute; reflexivity|].
  exact (model_resolved_when_lock_taken _ 1%nat _ _ _ _ _ _ E Hin).
Defined.

(** ** Whole schedules *)

Lemma calls_app acts1 acts2 : calls (acts1 ++ acts2) = calls acts1 ++ calls acts2.
Proof.
  induction acts1 as [|[u text pm|t b u m] acts1 IH]; simpl; [done|done|].
  by rewrite IH.
Qed.

Lemma admitted_cons e es : admitted (e :: es) = admitted [e] ++ admitted es.
Proof.
  destruct e as [update context_bot| | | |]; simpl; try done.
  by destruct (findall_url (message_text update)).
Qed.

Lemma step_tasks_length sys e sys' acts :
  step sys e = Some (sys', acts) →
  (length (tasks sys) ≤ length (tasks sys'))%nat
  ∧ (is_spawn e = false → length (tasks sys') = length (tasks sys)).
Proof.
  destruct sys as [self ts].
  destruct e as [update context_bot|update args now| |i|i o]; simpl.
  - destruct (handle_message update context_bot self). by intros [= <- <-].
  - destruct (model_command update args now self). by intros [= <- <-].
  - intros [= <- <-]. simpl. rewrite length_app. simpl. split; [lia|done].
  - destruct (ts !! i) as [st|]; [|done]. simpl.
    destruct (process_queue_resume st self) as [[[self1 st1] acts1]|]; [|done].
    simpl. intros [= <- <-]. simpl. by rewrite length_insert.
  - destruct (ts !! i) as [st|]; [|done]. simpl.
    destruct (process_queue_return st o self) as [[[self1 st1] acts1]|]; [|done].
    simpl. intros [= <- <-]. simpl. by rewrite length_insert.
Qed.

Lemma run_tasks_length sys es sys' acts :
  run sys es = Some (sys', acts) →
  (length (tasks sys) ≤ length (tasks sys'))%nat.
Proof.
  revert sys acts. induction es as [|e es IH]; intros sys acts; simpl.
  - by intros [= <- <-].
  - destruct (step sys e) as [[sys1 acts1]|] eqn:E1; [|done]. simpl.
    destruct (run sys1 es) as [[sys2 acts2]|] eqn:E2; [|done]. simpl.
    intros [= <- <-]. apply step_tasks_length in E1 as [? _].
    apply IH in E2. lia.
Qed.

(** What a message does to the queue, in terms of [admitted]. *)
Lemma handle_message_admitted update context_bot self :
  task_queue (handle_message update context_bot self).1
  = task_queue self ++ admitted [Message update context_bot]
  ∧ calls (handle_message update context_bot self).2 = [].
Proof.
  unfold handle_message. simpl.
  destruct (message_text update) as [|c text] eqn:Et.
  - simpl. by rewrite app_nil_r.
  - destruct (findall_url (c :: text)); simpl; [by rewrite app_nil_r | done].
Qed.

Lemma model_command_queue update args now self :
  task_queue (model_command update args now self).1 = task_queue self
  ∧ calls (model_command update args now self).2 = [].
Proof.
  unfold model_command. destruct args as [|new_model args]; [done|].
  by case_bool_decide.
Qed.

(** One step of a process with at most one dispatcher task, none of them
    waiting at the lock. *)
Lemma step_single sys e sys' acts :
  invariant sys →
  (length (tasks sys') ≤ 1)%nat →
  (∀ item, AwaitingGate item ∉ tasks sys) →
  step sys e = Some (sys', acts) →
  (∀ item, AwaitingGate item ∉ tasks sys')
  ∧ calls acts ++ task_queue (bot sys')
    = task_queue (bot sys) ++ admitted [e].
Proof.
  intros [Hgate _] Hlen Hnog. unfold in_flight in Hgate.
  destruct sys as [self ts].
  destruct e as [update context_bot|update args now| |i|i o]; simpl in *.
  - pose proof (handle_message_admitted update context_bot self) as [Hq Hc].
    destruct (handle_message update context_bot self) as [self1 acts1].
    intros [= <- <-]. simpl in *. by rewrite Hc, Hq.
  - pose proof (model_command_queue update args now self) as [Hq Hc].
    destruct (model_command update args now self) as [self1 acts1].
    intros [= <- <-]. simpl in *. by rewrite Hc, Hq, app_nil_r.
  - intros [= <- <-]. simpl in *. rewrite app_nil_r. split; [|done].
    intros item [Hin|Hin]%elem_of_app; [by apply (Hnog item)|].
    by apply list_elem_of_singleton in Hin.
  - destruct (ts !! i) as [st|] eqn:Ei; [|done]. simpl.
    destruct (process_queue_resume st self) as [[[self1 st1] acts1]|] eqn:E;
      [|done]. simpl. intros [= <- <-]. simpl in *.
    rewrite length_insert in Hlen.
    destruct ts as [|st0 [|st2 ts]]; [done| |simpl in Hlen; lia].
    destruct i as [|i]; [|done]. simpl in Ei. injection Ei as ->.
    simpl in *. rewrite app_nil_r.
    destruct st as [|item| |]; simpl in E; try done.
    + unfold get in E.
      destruct (task_queue self) as [|[[t b] u] q] eqn:Eq; [done|].
      simpl in E. unfold enter_gate in E. simpl in E.
      destruct (processing_lock self); [simpl in Hgate; lia|].
      injection E as <- <- <-. simpl. split; [|done].
      intros item Hin. by apply list_elem_of_singleton in Hin.
    + exfalso. apply (Hnog item). constructor.
  - destruct (ts !! i) as [st|] eqn:Ei; [|done]. simpl.
    destruct (process_queue_return st o self) as [[[self1 st1] acts1]|] eqn:E;
      [|done]. simpl. intros [= <- <-]. simpl in *.
    rewrite length_insert in Hlen.
    destruct ts as [|st0 [|st2 ts]]; [done| |simpl in Hlen; lia].
    destruct i as [|i]; [|done]. simpl in Ei. injection Ei as ->.
    simpl in *. rewrite app_nil_r.
    destruct st as [| |item m|]; simpl in E; try done.
    unfold task_done in E. simpl in E.
    destruct o as [delivered|]; [destruct (unfinished_tasks self)|];
      injection E as <- <- <-; simpl; (split; [|done]);
      intros it Hin; by apply list_elem_of_singleton in Hin.
Qed.

Lemma run_single sys es sys' acts :
  invariant sys →
  (length (tasks sys') ≤ 1)%nat →
  (∀ item, AwaitingGate item ∉ tasks sys) →
  run sys es = Some (sys', acts) →
  calls acts ++ task_queue (bot sys') = task_queue (bot sys) ++ admitted es.
Proof.
  revert sys acts. induction es as [|e es IH]; intros sys acts Hinv Hlen Hnog;
    simpl.
  - intros [= <- <-]. simpl. by rewrite app_nil_r.
  - destruct (step sys e) as [[sys1 acts1]|] eqn:E1; [|done]. simpl.
    destruct (run sys1 es) as [[sys2 acts2]|] eqn:E2; [|done]. simpl.
    intros [= <- <-].
    pose proof (run_tasks_length _ _ _ _ E2) as Hmono.
    assert (length (tasks sys1) ≤ 1)%nat as Hlen1 by lia.
    destruct (step_single _ _ _ _ Hinv Hlen1 Hnog E1) as [Hnog1 Hq1].
    pose proof (IH _ _ (invariant_step _ _ _ _ Hinv E1) Hlen Hnog1 E2) as Hq2.
    rewrite calls_app, <- app_assoc, Hq2, app_assoc, Hq1, <- app_assoc.
    by rewrite <- admitted_cons.
Qed.

(** X15: with one dispatcher task, the jobs handed to the collaborator so
    far, followed by the jobs still queued, are the accepted messages in
    their order of arrival: every accepted job is processed at most once,
    none is lost, and none overtakes another. *)
Theorem single_dispatcher_processes_in_order cfg_model cfg_valid_models es sys acts :
  run (start cfg_model cfg_valid_models) es = Some (sys, acts) →
  (length (tasks sys) ≤ 1)%nat →
  calls acts ++ task_queue (bot sys) = admitted es.
Proof.
  intros Hrun Hlen.
  apply (run_single _ _ _ _ (invariant_start _ _) Hlen) in Hrun; [done|].
  intros item Hin. by apply elem_of_nil in Hin.
Qed.

Lemma single_dispatcher_processes_in_order_witness :
  ∃ sys acts,
    run (start None None) busy_schedule = Some (sys, acts)
    ∧ calls acts = [(message_text link_42, ApplicationBot, link_42)]
    ∧ task_queue (bot sys) = [(message_text links_7, ApplicationBot, links_7)]
    ∧ calls acts ++ task_queue (bot sys) = admitted busy_schedule.
Proof.
  destruct (run (start None None) busy_schedule) as [[sys acts]|] eqn:E;
    [|vm_compute in E; discriminate].
  assert (length (tasks sys) ≤ 1)%nat as Hlen
    by (vm_compute in E; injection E as <- <-; simpl; lia).
  pose proof (single_dispatcher_processes_in_order None None _ _ _ E Hlen) as H.
  exists sys, acts. split_and!; [done | | | exact H];
    vm_compute in E; by injection E as <- <-.
Defined.

Lemma step_all_stopped sys e sys' acts :
  Forall (λ st, st = Stopped) (tasks sys) →
  is_spawn e = false →
  step sys e = Some (sys', acts) →
  Forall (λ st, st = Stopped) (tasks sys')
  ∧ calls acts = []
  ∧ task_queue (bot sys') = task_queue (bot sys) ++ admitted [e].
Proof.
  intros Hall Hns. destruct sys as [self ts].
  destruct e as [update context_bot|update args now| |i|i o]; simpl in *;
    try done.
  - pose proof (handle_message_admitted update context_bot self) as [Hq Hc].
    destruct (handle_message update context_bot self) as [self1 acts1].
    intros [= <- <-]. simpl in *. split_and!; eauto.
  - pose proof (model_command_queue update args now self) as [Hq Hc].
    destruct (model_command update args now self) as [self1 acts1].
    intros [= <- <-]. simpl in *. rewrite app_nil_r.
    split_and!; eauto.
  - destruct (ts !! i) as [st|] eqn:Ei; [|done]. simpl.
    rewrite Forall_lookup in Hall. by rewrite (Hall _ _ Ei).
  - destruct (ts !! i) as [st|] eqn:Ei; [|done]. simpl.
    rewrite Forall_lookup in Hall. by rewrite (Hall _ _ Ei).
Qed.

(** X16: once every dispatcher task has been stopped by an exception, and
    as long as no new one is created, no job is handed to the collaborator
    any more, while messages are still accepted and queued: the queue only
    grows. *)
Theorem stopped_dispatchers_process_nothing sys es sys' acts :
  Forall (λ st, st = Stopped) (tasks sys) →
  existsb is_spawn es = false →
  run sys es = Some (sys', acts) →
  calls acts = []
  ∧ task_queue (bot sys') = task_queue (bot sys) ++ admitted es
  ∧ Forall (λ st, st = Stopped) (tasks sys').
Proof.
  revert sys acts. induction es as [|e es IH]; intros sys acts Hall; simpl.
  - intros _ [= <- <-]. by rewrite app_nil_r.
  - intros [He Hes]%orb_false_elim.
    destruct (step sys e) as [[sys1 acts1]|] eqn:E1; [|done]. simpl.
    destruct (run sys1 es) as [[sys2 acts2]|] eqn:E2; [|done]. simpl.
    intros [= <- <-].
    destruct (step_all_stopped _ _ _ _ Hall He E1) as (Hall1 & Hc1 & Hq1).
    destruct (IH _ _ Hall1 Hes E2) as (Hc2 & Hq2 & Hall2).
    rewrite calls_app, Hc1, Hc2, Hq2, Hq1, <- app_assoc.
    by rewrite <- admitted_cons.
Qed.

Lemma stopped_dispatchers_process_nothing_witness :
  ∃ sys' acts,
    run (after crash_schedule) [Message links_7 ApplicationBot; Resume 0] = None
    ∧ run (after crash_schedule)
        [Message links_7 ApplicationBot; Message hello_42 ApplicationBot]
      = Some (sys', acts)
    ∧ calls acts = []
    ∧ task_queue (bot sys')
      = [(message_text links_7, ApplicationBot, links_7)].
Proof.
  destruct (run (after crash_schedule)
              [Message links_7 ApplicationBot; Message hello_42 ApplicationBot])
    as [[sys' acts]|] eqn:E; [|vm_compute in E; discriminate].
  assert (Forall (λ st, st = Stopped) (tasks (after crash_schedule))) as Hall
    by (vm_compute; repeat constructor).
  destruct (stopped_dispatchers_process_nothing (after crash_schedule)
              [Message links_7 ApplicationBot; Message hello_42 ApplicationBot]
              sys' acts Hall eq_refl E) as (Hc & Hq & _).
  exists sys', acts. split_and!; [vm_compute; reflexivity | done | exact Hc |].
  rewrite Hq. vm_compute. reflexivity.
Defined.




(** X18: a task that waits at the lock with a job in hand is never stuck
    when no call is in flight: the lock is then free, also after a call that
    raised, and the task's next step hands its job to the collaborator. *)
Theorem waiting_task_proceeds cfg_model cfg_valid_models sys i text b u :
  reachable cfg_model cfg_valid_models sys →
  tasks sys !! i = Some (AwaitingGate (text, b, u)) →
  in_flight sys = 0%nat →
  ∃ sys',
    step sys (Resume i)
    = Some (sys',
            [process_url_message text b u
               (get_whisper_model (bot sys) (effective_user_id u))])
    ∧ in_flight sys' = 1%nat.
Proof.
  intros Hr Hi H0.
  destruct (reachable_invariant _ _ _ Hr) as [Hgate _].
  assert (processing_lock (bot sys) = false) as Hl
    by (destruct (processing_lock (bot sys)); [lia | done]).
  destruct sys as [self ts]. simpl in *. rewrite Hi. simpl. rewrite Hl. simpl.
  unfold enter_gate. rewrite ?Hl. eexists. split; [reflexivity|].
  pose proof (count_tasks_insert is_processing ts i _
                (Processing (text, b, u)
                   (get_whisper_model (set_processing_lock true self)
                      (effective_user_id u))) Hi) as Hc.
  unfold in_flight in *. simpl in *. lia.
Qed.

Lemma waiting_task_proceeds_witness :
  ∃ sys',
    step (after handover_schedule) (Resume 1)
    = Some (sys',
            [process_url_message (message_text link_42) ApplicationBot link_42
               (get_whisper_model (bot (after handover_schedule))
                  (effective_user_id link_42))])
    ∧ in_flight sys' = 1%nat.
Proof.
  apply (waiting_task_proceeds None None (after handover_schedule) 1%nat
           (message_text link_42) ApplicationBot link_42
           (after_reachable handover_schedule)).
  - vm_compute. reflexivity.
  - vm_compute. reflexivity.
Defined.

(** ** The connection loop *)

(** With restarts switched off, [run] makes one pass and stops: it
    never sleeps and creates at most one dispatcher task, however the pass
    ends. *)
Theorem run_without_restart a attempts :
  ∃ effects,
    bot_run false (a :: attempts) = Some effects
    ∧ effects = (if reached_create_task a then [create_task_process_queue] else [])
    ∧ time_slept effects = 0
    ∧ (tasks_created effects ≤ 1)%nat.
Proof.
  destruct a as [[|]|]; eexists; (split; [reflexivity|]); simpl;
    split_and!; done || lia.
Qed.

Lemma bot_run_restart fails attempts :
  forallb failed fails = true →
  bot_run true (fails ++ attempts)
  = effects ← bot_run true attempts;
    Some (flat_map (λ a, (if reached_create_task a
                          then [create_task_process_queue] else [])
                         ++ [sleep 10]) fails ++ effects).
Proof.
  induction fails as [|a fails IH]; simpl.
  - intros _. by destruct (bot_run true attempts).
  - destruct a as [created|]; [|done]. simpl. intros Hf.
    rewrite IH by done. destruct (bot_run true attempts) as [effects|]; [|done].
    simpl. f_equal. by rewrite <- !app_assoc.
Qed.

(** X19: with restarts switched on, [run] goes on for as long as the passes
    fail; when a pass finally gets through polling, it has slept 10 seconds
    per failed pass and has created one dispatcher task for every pass that
    got as far as [create_task], the last one included; so every failure
    after that point leaves one more dispatcher task behind. *)
Theorem run_with_restart fails attempts :
  forallb failed fails = true →
  bot_run true fails = None
  ∧ ∃ effects,
      bot_run true (fails ++ Polled :: attempts) = Some effects
      ∧ time_slept effects = 10 * Z.of_nat (length fails)
      ∧ tasks_created effects
        = S (length (filter (λ a, reached_create_task a = true) fails)).
Proof.
  intros Hf. split.
  - pose proof (bot_run_restart fails [] Hf) as H.
    rewrite app_nil_r in H. by rewrite H.
  - rewrite bot_run_restart by done. simpl. eexists. split; [reflexivity|].
    clear attempts. induction fails as [|a fails IH]; [done|].
    simpl in Hf. apply andb_prop in Hf as [Ha Hf].
    destruct (IH Hf) as [IHs IHt].
    destruct a as [[|]|]; [| |done].
    + rewrite filter_cons_True by done. simpl in *. split; [lia | by rewrite IHt].
    + rewrite filter_cons_False by done. simpl in *. split; [lia | done].
Qed.

Lemma run_with_restart_witness :
  bot_run true [Raises false; Raises true; Raises true] = None
  ∧ bot_run true [Raises false; Raises true; Raises true; Polled]
    = Some [sleep 10; create_task_process_queue; sleep 10;
            create_task_process_queue; sleep 10; create_task_process_queue].
Proof.
  destruct (run_with_restart [Raises false; Raises true; Raises true] [] eq_refl)
    as [H1 _].
  split; [exact H1 | reflexivity].
Defined.

(** ** Any number of dispatcher tasks *)

Lemma waiting_insert ts i st st' :
  ts !! i = Some st →
  waiting (<[i := st']> ts) ++ gate_job st ≡ₚ waiting ts ++ gate_job st'.
Proof.
  unfold waiting. revert i. induction ts as [|x ts IH]; intros i Hi; [done|].
  destruct i as [|i]; simpl in *.
  - injection Hi as ->.
    rewrite (Permutation_app_comm (gate_job st' ++ flat_map gate_job ts)).
    rewrite (Permutation_app_comm (gate_job st')).
    by rewrite app_assoc.
  - rewrite <- !app_assoc. by rewrite (IH i Hi).
Qed.

Lemma step_conserves_jobs sys e sys' acts :
  step sys e = Some (sys', acts) →
  calls acts ++ waiting (tasks sys') ++ task_queue (bot sys')
  ≡ₚ waiting (tasks sys) ++ task_queue (bot sys) ++ admitted [e].
Proof.
  destruct sys as [self ts].
  destruct e as [update context_bot|update args now| |i|i o]; simpl.
  - pose proof (handle_message_admitted update context_bot self) as [Hq Hc].
    destruct (handle_message update context_bot self) as [self1 acts1].
    intros [= <- <-]. simpl in *. by rewrite Hc, Hq.
  - pose proof (model_command_queue update args now self) as [Hq Hc].
    destruct (model_command update args now self) as [self1 acts1].
    intros [= <- <-]. simpl in *. by rewrite Hc, Hq, app_nil_r.
  - intros [= <- <-]. simpl. unfold waiting. rewrite flat_map_app. simpl.
    by rewrite !app_nil_r.
  - destruct (ts !! i) as [st|] eqn:Ei; [|done]. simpl.
    destruct (process_queue_resume st self) as [[[self1 st1] acts1]|] eqn:E;
      [|done]. simpl. intros [= <- <-]. simpl. rewrite app_nil_r.
    pose proof (waiting_insert ts i st st1 Ei) as Hw.
    destruct st as [|[[t b] u]| |]; simpl in E; try done.
    + unfold get in E.
      destruct (task_queue self) as [|[[t b] u] q] eqn:Eq; [done|].
      simpl in E. unfold enter_gate in E. simpl in E.
      destruct (processing_lock self); injection E as <- <- <-; simpl in *;
        rewrite app_nil_r in Hw.
      * rewrite Hw. rewrite <- app_assoc. done.
      * rewrite app_nil_r in Hw. rewrite Hw.
        by rewrite Permutation_middle.
    + destruct (processing_lock self) eqn:El; [done|].
      unfold enter_gate in E. injection E as <- <- <-.
      simpl in *. rewrite app_nil_r in Hw. rewrite <- Hw.
      rewrite <- app_assoc. simpl.
      by rewrite <- Permutation_middle.
  - destruct (ts !! i) as [st|] eqn:Ei; [|done]. simpl.
    destruct (process_queue_return st o self) as [[[self1 st1] acts1]|] eqn:E;
      [|done]. simpl. intros [= <- <-]. simpl. rewrite app_nil_r.
    pose proof (waiting_insert ts i st st1 Ei) as Hw.
    destruct st as [| |item m|]; simpl in E; try done.
    unfold task_done in E. simpl in E.
    destruct o as [delivered|]; [destruct (unfinished_tasks self)|];
      injection E as <- <- <-; simpl in *; rewrite !app_nil_r in Hw;
      by rewrite Hw.
Qed.

Lemma run_conserves_jobs sys es sys' acts :
  run sys es = Some (sys', acts) →
  calls acts ++ waiting (tasks sys') ++ task_queue (bot sys')
  ≡ₚ waiting (tasks sys) ++ task_queue (bot sys) ++ admitted es.
Proof.
  revert sys acts. induction es as [|e es IH]; intros sys acts; simpl.
  - intros [= <- <-]. simpl. by rewrite app_nil_r.
  - destruct (step sys e) as [[sys1 acts1]|] eqn:E1; [|done]. simpl.
    destruct (run sys1 es) as [[sys2 acts2]|] eqn:E2; [|done]. simpl.
    intros [= <- <-].
    rewrite calls_app, <- app_assoc, (IH _ _ E2).
    transitivity ((calls acts1 ++ waiting (tasks sys1) ++ task_queue (bot sys1))
                  ++ admitted es); [by rewrite <- !app_assoc|].
    rewrite (step_conserves_jobs _ _ _ _ E1).
    rewrite <- !app_assoc. by rewrite <- admitted_cons.
Qed.

(** X20: with any number of dispatcher tasks no accepted job is lost or
    duplicated: the jobs handed to the collaborator so far, those held by
    tasks waiting at the lock and those still queued are, taken together,
    exactly the accepted messages, each one once. *)
Theorem jobs_are_conserved cfg_model cfg_valid_models es sys acts :
  run (start cfg_model cfg_valid_models) es = Some (sys, acts) →
  calls acts ++ waiting (tasks sys) ++ task_queue (bot sys) ≡ₚ admitted es.
Proof. intros Hrun. by apply run_conserves_jobs in Hrun. Qed.

Lemma jobs_are_conserved_witness :
  ∃ sys acts,
    run (start None None) handover_schedule = Some (sys, acts)
    ∧ calls acts = [(message_text links_7, ApplicationBot, links_7)]
    ∧ waiting (tasks sys) = [(message_text link_42, ApplicationBot, link_42)]
    ∧ task_queue (bot sys) = []
    ∧ calls acts ++ waiting (tasks sys) ++ task_queue (bot sys)
      ≡ₚ admitted handover_schedule.
Proof.
  destruct (run (start None None) handover_schedule) as [[sys acts]|] eqn:E;
    [|vm_compute in E; discriminate].
  pose proof (jobs_are_conserved None None _ _ _ E) as H.
  exists sys, acts. split_and!; [done | | | | exact H];
    vm_compute in E; by injection E as <- <-.
Defined.
